(** * Supermaple: the physics core, its box registry, the seeded random
      source and the frame scheduler

    A shallow embedding of [src/App.tsx] (class [Physics], the animation
    callback [onAnimationFrame]) and of the utility module ([assert],
    [random], [random_cache]).

    Modelling choices.
    - The numbers of the clock ([stepMs], [startTime], [lastTime], the
      sampled time, the frame indices, the frame count and the loop counter)
      are IEEE binary64 numbers, the primitive floats of Rocq, and the
      scheduler computes with their subtraction, division, addition and
      comparison, with [NaN], the infinities and the two zeros: a quotient
      is rounded before [Math.floor] sees it, a division by a zero [stepMs]
      gives an infinity or [NaN], and the loop counter stops growing at
      [2^53].  The loop of the scheduler need not end; it is given a bound
      on its iterations, and a call whose loop is not over at the bound is
      [Running].
    - The numbers of a box ([x], [y], [w], [h]) and the random numbers are
      finite numbers that the program stores, prints and scales by [px];
      they are modelled as exact rationals ([Q]).
    - Objects are held in a store and named by their address ([nat]): the
      registry [boxes] and the map [random_cache] hold references, so that
      aliasing (the box returned by [add] is the box stored) is visible.
    - A JavaScript object used as a dictionary ([boxes]) is a finite map of
      its own properties; the operator [in] also sees the properties
      inherited from [Object.prototype].
    - Exceptions and mutation are threaded by a small state-and-error monad:
      a computation returns either a value or the thrown message, together
      with the state reached (an exception does not undo earlier writes).
    - The registration of the next animation frame is not modelled.  The
      scheduler is given twice: [onAnimationFrame] is the callback without
      the styling of the box [div]s, [onAnimationFrame_page] the callback
      with its whole body, on a page that holds the [div]s. *)

From Stdlib Require Import ZArith QArith Lqa Floats Ascii.
From stdpp Require Import gmap strings list sorting.

Set Default Proof Using "Type".
#[local] Set Warnings "-inexact-float".

(** ** State and exceptions *)

Inductive result (A : Type) : Type :=
| Ok (value : A)
| Throw (message : string).
Arguments Ok {A} value.
Arguments Throw {A} message.

Definition M (S A : Type) : Type := S → result A * S.

Definition ret {S A : Type} (a : A) : M S A := λ s, (Ok a, s).

Definition throw {S A : Type} (message : string) : M S A := λ s, (Throw message, s).

Definition bind {S A B : Type} (m : M S A) (k : A → M S B) : M S B :=
  λ s, match m s with
       | (Ok a, s') => k a s'
       | (Throw message, s') => (Throw message, s')
       end.

Definition gets {S A : Type} (f : S → A) : M S A := λ s, (Ok (f s), s).

Definition modify {S : Type} (f : S → S) : M S unit := λ s, (Ok tt, f s).

Notation "x <~ m ;; k" := (bind m (λ x, k))
  (at level 100, m at next level, right associativity,
   format "'[v' x  <~  m  ;;  '/' k ']'").
Notation "m ;;; k" := (bind m (λ _, k))
  (at level 100, right associativity).

Definition is_throw {A : Type} (r : result A) : bool :=
  match r with Throw _ => true | Ok _ => false end.

(** A call with a loop may not return.  [Running] is a call whose loop was
    not over when the bound on its iterations was reached. *)
Inductive outcome (A : Type) : Type :=
| Returned (r : result A)
| Running.
Arguments Returned {A} r.
Arguments Running {A}.

Definition returned {A : Type} (o : outcome A) : bool :=
  match o with Returned _ => true | Running => false end.

(** A computation, then a loop on what it has computed; an exception of the
    computation ends the call. *)
Definition and_then {S A B : Type} (m : M S A) (k : A → S → outcome B * S)
  : S → outcome B * S :=
  λ s, match m s with
       | (Ok a, s') => k a s'
       | (Throw message, s') => (Returned (Throw message), s')
       end.

(** ** The utility module *)

(** [data.join(' ')] *)
Definition join (sep : string) (data : list string) : string :=
  String.concat sep data.

(** [function assert(...args)]: throws [Error("Assertion failed: ...")]
    when the condition is falsy; the rest arguments are joined by a space. *)
Definition assert {S : Type} (condition : bool) (data : list string) : M S unit :=
  if negb condition
  then throw ("Assertion failed" +:+
              (if negb (Nat.eqb (length data) 0) then ": " +:+ join " " data else ""))
  else ret tt.

(** ** The numbers of the clock: IEEE binary64 *)

Module Binary64.

(** [Math.floor]: a finite number with a negative exponent has a fractional
    part, which is cut off towards minus infinity; every other number
    (an integer, a zero, an infinity, NaN) is returned as it is.  The
    integer part of a number with a fractional part is below [2^53] and
    converts exactly. *)
Definition Math_floor (x : float) : float :=
  match Prim2SF x with
  | S754_finite negative m e =>
      if (0 <=? e)%Z then x
      else
        let magnitude := Z.shiftr (Z.pos m) (- e) in
        let whole := (Z.shiftl magnitude (- e) =? Z.pos m)%Z in
        if negative
        then PrimFloat.opp
               (PrimFloat.of_uint63
                  (Uint63.of_Z (if whole then magnitude else magnitude + 1)))
        else PrimFloat.of_uint63 (Uint63.of_Z magnitude)
  | _ => x
  end.

(** What [if (fastForwardFrames)] tests: a number is falsy when it is a
    zero or NaN (the only number that differs from itself). *)
Definition truthy (x : float) : bool :=
  negb (PrimFloat.eqb x 0) && PrimFloat.eqb x x.

(** [pastFrames] and [allFrames] of [onAnimationFrame], as functions of the
    clock. *)
Definition frame_index (stepMs startTime time : float) : float :=
  Math_floor (PrimFloat.div (PrimFloat.sub time startTime) stepMs).

(** [fastForwardFrames], as a function of the clock. *)
Definition fastForwardFrames (stepMs startTime lastTime time : float) : float :=
  PrimFloat.sub (frame_index stepMs startTime time) (frame_index stepMs startTime lastTime).

(** The binary64 number that is the whole number [n], for [0 <= n <= 2^53]
    (every such number is a binary64 number), and for a whole number of
    either sign. *)
Definition whole (n : Z) : float := PrimFloat.of_uint63 (Uint63.of_Z n).

Definition wholeZ (z : Z) : float :=
  if (z <? 0)%Z then PrimFloat.opp (whole (- z)) else whole z.

(** A mantissa with [n] more zero bits. *)
Definition shl (m : positive) (n : nat) : positive := Nat.iter n xO m.

(** The mantissa, of 53 bits, and the exponent of a positive whole number
    below [2^53]. *)
Definition mantissa (p : positive) : positive :=
  shl p (Z.to_nat (53 - Z.pos (digits2_pos p))).
Definition exponent (p : positive) : Z := (Z.pos (digits2_pos p) - 53)%Z.

End Binary64.

(** ** Data model of the physics core *)

(** [type BoxKind = 'solid' | 'sensor' | 'platform'] *)
Inductive BoxKind : Type := solid | sensor | platform.

(** [type Box = { id; x; y; w; h; kind }] *)
Record Box : Type := mkBox {
  box_id : string;
  box_x : Q;
  box_y : Q;
  box_w : Q;
  box_h : Q;
  box_kind : BoxKind;
}.

(** [Partial<Box>]: every field may be omitted. *)
Record PartialBox : Type := mkPartialBox {
  opt_id : option string;
  opt_x : option Q;
  opt_y : option Q;
  opt_w : option Q;
  opt_h : option Q;
  opt_kind : option BoxKind;
}.

(** The argument [{}]. *)
Definition no_fields : PartialBox :=
  {| opt_id := None; opt_x := None; opt_y := None;
     opt_w := None; opt_h := None; opt_kind := None |}.

(** [class Physics]: the clock and the registry.  [boxes] maps an id to a
    reference to a box object of the store. *)
Record Physics : Type := mkPhysics {
  stepMs : float;
  startTime : float;
  lastTime : float;
  boxes : gmap string nat;
}.

(** [new Physics()]: the private constructor with its defaults; the two
    calls of [Date.now()] are given by the environment. *)
Definition Physics_create (now_start now_last : float) : Physics :=
  {| stepMs := PrimFloat.div 1000 60; startTime := now_start; lastTime := now_last; boxes := ∅ |}.

(** What an observer of a run sees: [physics.step] being called for a frame
    index, and a collision callback being run on two boxes. *)
Inductive Event : Type :=
| Stepped (frame : float)
| Collided (box1 box2 : nat).

(** The property names of [Object.prototype], which every object literal
    inherits (ECMAScript, "Properties of the Object Prototype Object", with
    the legacy accessors). *)
Definition Object_prototype : list string :=
  [ "constructor"; "hasOwnProperty"; "isPrototypeOf"; "propertyIsEnumerable";
    "toLocaleString"; "toString"; "valueOf"; "__proto__";
    "__defineGetter__"; "__defineSetter__"; "__lookupGetter__"; "__lookupSetter__" ].

(** [key in o] for an object literal [o] used as a dictionary: own
    properties first, then the prototype chain. *)
Definition js_in {V : Type} (key : string) (o : gmap string V) : bool :=
  bool_decide (is_Some (o !! key)) || bool_decide (key ∈ Object_prototype).

(** [a ?? b] *)
Definition nullish {A : Type} (a : option A) (b : A) : A :=
  match a with Some v => v | None => b end.

(** ** The host environment *)

(** What the program takes from outside.  The [seedrandom] package: [PRNG]
    is the internal state of a generator, [seedrandom seed] builds one
    ([None] is the call without a seed, which takes its entropy from the
    environment), and calling a generator yields a number and advances it.
    The JavaScript runtime: [number_to_string n] is [`${n}`]. *)
Class Host : Type := mkHost {
  PRNG : Type;
  seedrandom : option string → PRNG;
  prng_call : PRNG → Q * PRNG;
  number_to_string : Q → string;
}.

Section Supermaple.

Context `{Host}.

(** [random_cache = new Map<string | undefined, PRNG>()]: the map holds
    references to generator objects; [generators] is the store of the
    generator objects built so far, in the order of their construction. *)
Record RandomState : Type := mkRandomState {
  random_cache : gmap (option string) nat;
  generators : list PRNG;
}.

Definition random_init : RandomState :=
  {| random_cache := ∅; generators := [] |}.

(** [random_cache.has(seed)] *)
Definition cache_has (seed : option string) (s : RandomState) : bool :=
  bool_decide (is_Some (random_cache s !! seed)).

(** [random_cache.set(seed, seedrandom(seed))]: a new generator object is
    allocated and the map entry points at it. *)
Definition cache_set_new (seed : option string) (s : RandomState) : RandomState :=
  {| random_cache := <[seed := length (generators s)]> (random_cache s);
     generators := generators s ++ [seedrandom seed] |}.

(** [function random(seed?)].  [get] follows [has] and [set], and a cached
    reference always names a generator of the store, so neither failure
    branch is reached ([random_step] below); they stand for the [TypeError]
    of calling [undefined]. *)
Definition random (seed : option string) : M RandomState Q :=
  λ s,
    let s1 := if negb (cache_has seed s) then cache_set_new seed s else s in
    match random_cache s1 !! seed with
    | Some g =>
        match generators s1 !! g with
        | Some gen =>
            let '(v, gen') := prng_call gen in
            (Ok v, {| random_cache := random_cache s1;
                      generators := <[g := gen']> (generators s1) |})
        | None => (Throw "TypeError: dangling generator reference", s1)
        end
    | None => (Throw "TypeError: random_cache.get(...) is not a function", s1)
    end.

(** A generator after [n] calls. *)
Definition advance (n : nat) (gen : PRNG) : PRNG :=
  Nat.iter n (λ g, (prng_call g).2) gen.

(** The state of the utility module after a sequence of calls of [random],
    given by their seeds. *)
Definition random_calls (calls : list (option string)) (s : RandomState) : RandomState :=
  foldl (λ s seed, (random seed s).2) s calls.

(** How many of the calls were made with this seed. *)
Definition calls_with (seed : option string) (calls : list (option string)) : nat :=
  length (filter (λ c, c = seed) calls).

(** What the calls made so far leave behind: a cache entry for exactly the
    seeds used, each pointing at a generator of its own which was built from
    that seed and called once per call with that seed, and no generator
    besides those. *)
Definition cache_inv (calls : list (option string)) (s : RandomState) : Prop :=
  (∀ seed, seed ∈ calls ↔ is_Some (random_cache s !! seed))
  ∧ (∀ seed g, random_cache s !! seed = Some g →
       generators s !! g = Some (advance (calls_with seed calls) (seedrandom seed)))
  ∧ (∀ seed1 seed2 g, random_cache s !! seed1 = Some g →
       random_cache s !! seed2 = Some g → seed1 = seed2)
  ∧ size (random_cache s) = length (generators s).

(** ** The physics core *)

(** The mutable world of one session: the module-level [random_cache],
    the store of box objects, the single [Physics] instance, and the
    events observed so far. *)
Record State : Type := mkState {
  rng : RandomState;
  heap : list Box;
  physics : Physics;
  trace : list Event;
}.

Definition set_rng (r : RandomState) (s : State) : State :=
  {| rng := r; heap := heap s; physics := physics s; trace := trace s |}.
Definition set_heap (h : list Box) (s : State) : State :=
  {| rng := rng s; heap := h; physics := physics s; trace := trace s |}.
Definition set_physics (p : Physics) (s : State) : State :=
  {| rng := rng s; heap := heap s; physics := p; trace := trace s |}.
Definition set_trace (t : list Event) (s : State) : State :=
  {| rng := rng s; heap := heap s; physics := physics s; trace := t |}.

Definition set_startTime (t : float) (p : Physics) : Physics :=
  {| stepMs := stepMs p; startTime := t; lastTime := lastTime p; boxes := boxes p |}.
Definition set_lastTime (t : float) (p : Physics) : Physics :=
  {| stepMs := stepMs p; startTime := startTime p; lastTime := t; boxes := boxes p |}.
Definition set_boxes (b : gmap string nat) (p : Physics) : Physics :=
  {| stepMs := stepMs p; startTime := startTime p; lastTime := lastTime p; boxes := b |}.

(** A session starts with an empty cache, no box and a new [Physics]. *)
Definition State_init (now_start now_last : float) : State :=
  {| rng := random_init; heap := []; physics := Physics_create now_start now_last;
     trace := [] |}.

(** Running a computation of the utility module inside the session. *)
Definition with_rng {A : Type} (m : M RandomState A) : M State A :=
  λ s, let '(r, rs) := m (rng s) in (r, set_rng rs s).

(** [const box: Box = {...}]: a new object in the store. *)
Definition alloc (box : Box) : M State nat :=
  λ s, (Ok (length (heap s)), set_heap (heap s ++ [box]) s).

(** An observation is appended to the trace. *)
Definition emit (e : Event) : M State unit :=
  modify (λ s, set_trace (trace s ++ [e]) s).

(** The default of the parameter [id] is evaluated only when the field
    is omitted, and it is the only default with an effect. *)
Definition resolve_id (arg : PartialBox) : M State string :=
  match opt_id arg with
  | Some i => ret i
  | None => v <~ with_rng (random None) ;; ret (number_to_string v)
  end.

(** [add({ id = `${random()}`, x = 0, y = 0, w = 1, h = 1, kind = 'solid' })] *)
Definition add (arg : PartialBox) : M State nat :=
  id <~ resolve_id arg ;;
  let x := nullish (opt_x arg) 0%Q in
  let y := nullish (opt_y arg) 0%Q in
  let w := nullish (opt_w arg) 1%Q in
  let h := nullish (opt_h arg) 1%Q in
  let kind := nullish (opt_kind arg) solid in
  this_boxes <~ gets (λ s, boxes (physics s)) ;;
  assert (negb (js_in id this_boxes)) ["Box@" +:+ id +:+ " already exists"] ;;;
  box <~ alloc {| box_id := id; box_x := x; box_y := y;
                  box_w := w; box_h := h; box_kind := kind |} ;;
  modify (λ s, set_physics (set_boxes (<[id := box]> (boxes (physics s))) (physics s)) s) ;;;
  ret box.

(** A collision callback receives two box references and may do anything
    to the session. *)
Definition Callback : Type := nat → nat → M State unit.

(** [step(onCollision?) {}]: the body is empty. *)
Definition step (onCollision : option Callback) : M State unit :=
  ret tt.

(** ** The frame scheduler *)

(** The callback handed to [step] by the game loop: its body is a comment. *)
Definition loop_callback : Callback := λ box1 box2, ret tt.

(** [for (let f = 0; f < fastForwardFrames; f++) { ... }], without the
    styling of the box [div]s: each iteration computes [frame] and calls
    [physics.step].  The counter is a number: the test and the increment
    are those of binary64.  The call of [step] for [frame] is recorded in
    the trace.  [fuel] bounds the iterations. *)
Fixpoint frames_loop (fuel : nat) (pastFrames fastForwardFrames f : float) (s : State)
  : outcome unit * State :=
  if PrimFloat.ltb f fastForwardFrames then
    match fuel with
    | O => (Running, s)
    | S fuel =>
        let frame := PrimFloat.add pastFrames f in
        match (emit (Stepped frame) ;;; step (Some loop_callback)) s with
        | (Ok _, s') =>
            frames_loop fuel pastFrames fastForwardFrames (PrimFloat.add f 1) s'
        | (Throw message, s') => (Returned (Throw message), s')
        end
    end
  else (Returned (Ok tt), s).

(** [const onAnimationFrame = (time: number) => {...}]; [stepMs] is the
    constant captured by the enclosing effect, [const { stepMs } = physics].
    The fields [startTime] and [lastTime] are numbers, set by the
    constructor, so [??] keeps them. *)
Definition onAnimationFrame (fuel : nat) (stepMs time : float)
  : State → outcome unit * State :=
  and_then
    (modify (λ s, set_physics
                    (set_startTime (nullish (Some (startTime (physics s))) time) (physics s)) s) ;;;
     modify (λ s, set_physics
                    (set_lastTime (nullish (Some (lastTime (physics s))) time) (physics s)) s) ;;;
     startTime <~ gets (λ s, startTime (physics s)) ;;
     lastTime <~ gets (λ s, lastTime (physics s)) ;;
     let pastFrames :=
       Binary64.Math_floor (PrimFloat.div (PrimFloat.sub lastTime startTime) stepMs) in
     let allFrames :=
       Binary64.Math_floor (PrimFloat.div (PrimFloat.sub time startTime) stepMs) in
     let fastForwardFrames := PrimFloat.sub allFrames pastFrames in
     (if Binary64.truthy fastForwardFrames
      then modify (λ s, set_physics (set_lastTime time (physics s)) s)
      else ret tt) ;;;
     ret (pastFrames, fastForwardFrames))
    (λ '(pastFrames, fastForwardFrames),
       frames_loop fuel pastFrames fastForwardFrames 0%float).

(** The game loop effect: [const { stepMs } = physics] is read once, when
    the effect runs, and the callback that is registered closes over it. *)
Definition game_loop (fuel : nat) (s : State) : float → State → outcome unit * State :=
  let stepMs := stepMs (physics s) in
  onAnimationFrame fuel stepMs.

(** ** Observations *)

(** The events of a run from [s] to [s']. *)
Definition new_events (s s' : State) : list Event :=
  drop (length (trace s)) (trace s').

(** The frame indices for which [physics.step] was called, in order. *)
Fixpoint stepped_frames (events : list Event) : list float :=
  match events with
  | [] => []
  | Stepped frame :: rest => frame :: stepped_frames rest
  | Collided _ _ :: rest => stepped_frames rest
  end.

(** The pairs of boxes on which a recording callback was run, in order. *)
Fixpoint collisions (events : list Event) : list (nat * nat) :=
  match events with
  | [] => []
  | Stepped _ :: rest => collisions rest
  | Collided box1 box2 :: rest => (box1, box2) :: collisions rest
  end.

(** A callback that records its invocation. *)
Definition recording_callback : Callback :=
  λ box1 box2, emit (Collided box1 box2).

(** How often the unordered pair of [a] and [b] occurs among [pairs]. *)
Definition count_unordered (a b : nat) (pairs : list (nat * nat)) : nat :=
  length (filter (λ p, p = (a, b) ∨ p = (b, a)) pairs).


(** [physics.boxes[id]]: the box object reached through the registry. *)
Definition registry_get (id : string) (s : State) : option Box :=
  boxes (physics s) !! id ≫= λ ref, heap s !! ref.


End Supermaple.

(** ** Vocabulary of the specification *)

(** [a < b] on numbers. *)
Definition Qltb (a b : Q) : bool := negb (Qle_bool b a).

(** The narrow-phase test of the specification: the half-open rectangles
    [x, x+w) × [y, y+h) of two boxes have a point in common.  No function of
    the source computes it; it is used to state what the specification asks
    of [step]. *)
Definition overlaps (a b : Box) : bool :=
  Qltb (box_x a) (box_x b + box_w b) && Qltb (box_x b) (box_x a + box_w a)
  && Qltb (box_y a) (box_y b + box_h b) && Qltb (box_y b) (box_y a + box_h a).

(** ** A concrete host, for examples *)

(** A generator that counts: seeded with the length of the seed (7 without
    a seed), it yields its state divided by 100. *)
Definition counting_host : Host :=
  {| PRNG := nat;
     seedrandom := λ seed, match seed with Some text => String.length text | None => 7%nat end;
     prng_call := λ g, ((inject_Z (Z.of_nat g) / 100)%Q, S g);
     number_to_string := λ n, if Qeq_bool n (7 # 100) then "0.07" else "0.5" |}.

(** A session whose clock reads the given values and that has no box. *)
Definition clock_state (step start last : float) : @State counting_host :=
  {| rng := random_init; heap := [];
     physics := {| stepMs := step; startTime := start; lastTime := last; boxes := ∅ |};
     trace := [] |}.

(** [{ id, x, y, w, h, kind }] with every field given. *)
Definition full_box (id : string) (x y w h : Q) (kind : BoxKind) : PartialBox :=
  {| opt_id := Some id; opt_x := Some x; opt_y := Some y;
     opt_w := Some w; opt_h := Some h; opt_kind := Some kind |}.

(** The session after two calls of [add]. *)
Definition two_boxes (a b : PartialBox) : @State counting_host :=
  (add b (add a (State_init 0 0)).2).2.

(** ** The program around the physics core *)

(** [const px = 16]: the side of a tile, in pixels. *)
Definition px : Q := 16.

(** [const cameraTiles = 10] and [const cameraSidePx = cameraTiles * px] of
    [GameLayer]. *)
Definition cameraTiles : Q := 10.
Definition cameraSidePx : Q := (cameraTiles * px)%Q.

(** The scale of the camera for a window of the given inner width and
    height: [cameraRatio], [windowRatio], [scaleCameraByH] and
    [cameraScale] of [GameLayer]. *)
Definition cameraScale (windowW windowH : Q) : Q :=
  let cameraRatio := (cameraSidePx / cameraSidePx)%Q in
  let windowRatio := (windowW / windowH)%Q in
  let scaleCameraByH := Qltb cameraRatio windowRatio in
  if scaleCameraByH then (windowH / cameraSidePx)%Q else (windowW / cameraSidePx)%Q.

(** *** The tile map *)

(** [const map_legend]: the sheet column and row of each tile key. *)
Definition map_legend : gmap string (Q * Q) :=
  list_to_map
    [ ("gq", (0, 58)); ("gw", (1, 58)); ("ge", (2, 58));
      ("ga", (0, 59)); ("gs", (1, 59)); ("gd", (2, 59));
      ("gz", (0, 60)); ("gx", (1, 60)); ("gc", (2, 60));
      ("g1", (4, 58)); ("g2", (5, 58)); ("g3", (4, 59)); ("g4", (5, 59));
      ("tq", (30, 37)); ("tw", (31, 37)); ("te", (32, 37));
      ("ta", (30, 38)); ("ts", (31, 38)); ("td", (32, 38));
      ("tz", (30, 39)); ("tx", (31, 39)); ("tc", (32, 39));
      ("t1", (31, 40)); ("t2", (31, 41));
      ("b1", (0, 5)); ("b2", (1, 5)); ("b3", (2, 5)); ("b4", (3, 5)) ]%Q.

(** [const map_json]: the rows of the map, tile keys separated by commas. *)
Definition map_json : list string :=
  [ "  ,  ,  ,  ,  ,  ,  ,  ,  ,  ";
    "  ,  ,  ,  ,  ,  ,  ,  ,  ,  ";
    "  ,  ,  ,  ,  ,  ,  ,  ,  ,  ";
    "  ,  ,  ,tq,tw,te,  ,  ,  ,  ";
    "  ,b1,  ,ta,ts,td,  ,  ,  ,  ";
    "  ,  ,  ,tz,tx,tc,g1,gw,g2,  ";
    "  ,  ,  ,  ,t1,  ,g3,gs,g4,  ";
    "  ,  ,  ,  ,t2,  ,g3,gs,g4,  ";
    "gq,gw,gw,gw,gw,gw,gw,gw,gw,ge";
    "ga,gs,gs,gs,gs,gs,gs,gs,gs,gd" ].

(** [text.split(sep)] for a separator of one character: the pieces between
    the separators, at least one piece. *)
Fixpoint split (sep : Ascii.ascii) (text : string) : list string :=
  match text with
  | EmptyString => [EmptyString]
  | String c rest =>
      if Ascii.eqb c sep then EmptyString :: split sep rest
      else match split sep rest with
           | piece :: pieces => String c piece :: pieces
           | [] => [String c EmptyString]
           end
  end.

(** An array index or a loop counter as a number. *)
Definition number_of_nat (n : nat) : Q := inject_Z (Z.of_nat n).

(** The eight numbers of a call of [canvasContext.drawImage(tileset, ...)]. *)
Record DrawImage : Type := mkDrawImage {
  draw_sx : Q;
  draw_sy : Q;
  draw_sw : Q;
  draw_sh : Q;
  draw_dx : Q;
  draw_dy : Q;
  draw_dw : Q;
  draw_dh : Q;
}.

(** The call for the tile at sheet position [(sx, sy)] in cell [(x, y)];
    [const tilesetPxOff = px + 1]. *)
Definition draw_tile (sheet : Q * Q) (y x : nat) : DrawImage :=
  let '(sx, sy) := sheet in
  let tilesetPxOff := (px + 1)%Q in
  {| draw_sx := 1 + sx * tilesetPxOff;
     draw_sy := 1 + sy * tilesetPxOff;
     draw_sw := 1 * px;
     draw_sh := 1 * px;
     draw_dx := number_of_nat x * px;
     draw_dy := number_of_nat y * px;
     draw_dw := 1 * px;
     draw_dh := 1 * px |}.

(** The body of the inner loop for the cell [x] of row [y]: a key that
    [in] does not find in the legend is skipped; destructuring
    [[sx, sy] = legend[tileKey]] throws when [in] found a member of
    [Object.prototype], which is not iterable.  The state is the list of
    the calls of [drawImage] so far. *)
Definition draw_cell (legend : gmap string (Q * Q)) (y x : nat) (tileKey : string)
  : M (list DrawImage) unit :=
  if negb (js_in tileKey legend) then ret tt
  else match legend !! tileKey with
       | Some sheet => modify (λ canvas, canvas ++ [draw_tile sheet y x])
       | None => throw "TypeError: map_legend[tileKey] is not iterable"
       end.

(** [for (let x = 0; x < rowTiles.length; x++) { ... }], from [x] on. *)
Fixpoint draw_row (legend : gmap string (Q * Q)) (y x : nat) (rowTiles : list string)
  : M (list DrawImage) unit :=
  match rowTiles with
  | [] => ret tt
  | tileKey :: rest => draw_cell legend y x tileKey ;;; draw_row legend y (S x) rest
  end.

(** [for (const ystr in map) { ... }], from row [y] on: the indices of an
    array come in increasing order, and [y = Number(ystr)]. *)
Fixpoint draw_rows (legend : gmap string (Q * Q)) (y : nat) (rows : list string)
  : M (list DrawImage) unit :=
  match rows with
  | [] => ret tt
  | row :: rest => draw_row legend y 0 (split ","%char row) ;;; draw_rows legend (S y) rest
  end.

(** The effect that draws the tiles, once the tile sheet is loaded. *)
Definition draw_tiles (legend : gmap string (Q * Q)) (map : list string)
  : M (list DrawImage) unit :=
  draw_rows legend 0 map.

(** The tiles of the cells from [x] on of row [y] whose key the legend
    defines, and the tiles of the rows from [y] on. *)
Fixpoint row_tiles (legend : gmap string (Q * Q)) (y x : nat) (cells : list string)
  : list DrawImage :=
  match cells with
  | [] => []
  | key :: rest =>
      match legend !! key with
      | Some sheet => draw_tile sheet y x :: row_tiles legend y (S x) rest
      | None => row_tiles legend y (S x) rest
      end
  end.

Fixpoint rows_tiles (legend : gmap string (Q * Q)) (y : nat) (rows : list string)
  : list DrawImage :=
  match rows with
  | [] => []
  | row :: rest => row_tiles legend y 0 (split ","%char row) ++ rows_tiles legend (S y) rest
  end.

(** No cell of the map names a member of [Object.prototype] that the legend
    does not define. *)
Definition drawable (legend : gmap string (Q * Q)) (map : list string) : Prop :=
  Forall (λ row, Forall (λ key, key ∈ Object_prototype → is_Some (legend !! key))
                   (split "," row)) map.

(** The square of the second call lies below the square of the first, or
    in the same row and to the right of it. *)
Definition drawn_apart (a b : DrawImage) : Prop :=
  (draw_dy a + draw_dh a <= draw_dy b)%Q
  ∨ (draw_dy a == draw_dy b ∧ draw_dx a + draw_dw a <= draw_dx b)%Q.

Section Application.

Context `{Host}.

(** The browser runs the registered callback once per animation frame,
    with the time of the frame.  A callback that does not return blocks
    the page, and no later callback runs. *)
Fixpoint animation_frames (fuel : nat) (ms : float) (times : list float) (s : State)
  : outcome unit * State :=
  match times with
  | [] => (Returned (Ok tt), s)
  | time :: later =>
      match onAnimationFrame fuel ms time s with
      | (Returned _, s') => animation_frames fuel ms later s'
      | (Running, s') => (Running, s')
      end
  end.

(** What the registry and the box store have to do with each other: every
    registered id leads to a box object that carries this id, every box
    object of the store is registered under its id, and no id is a property
    name of [Object.prototype]. *)
Definition registry_wf (s : State) : Prop :=
  (∀ id ref, boxes (physics s) !! id = Some ref →
     ∃ box, heap s !! ref = Some box ∧ box_id box = id)
  ∧ (∀ ref box, heap s !! ref = Some box → boxes (physics s) !! box_id box = Some ref)
  ∧ (∀ id, is_Some (boxes (physics s) !! id) → id ∉ Object_prototype).

(** The calls that the program makes on a [Physics] instance. *)
Inductive Call : Type :=
| CallAdd (arg : PartialBox)
| CallStep (onCollision : option Callback)
| CallFrame (ms time : float).

(** The session after a call, and whether the call is over; an exception
    ends the call, not the session. *)
Definition run_call (fuel : nat) (s : State) (call : Call) : bool * State :=
  match call with
  | CallAdd arg => (true, (add arg s).2)
  | CallStep onCollision => (true, (step onCollision s).2)
  | CallFrame ms time =>
      let out := onAnimationFrame fuel ms time s in (returned out.1, out.2)
  end.

(** The session after a sequence of calls, or where it is when a call does
    not return. *)
Fixpoint run_calls (fuel : nat) (calls : list Call) (s : State) : State :=
  match calls with
  | [] => s
  | call :: later =>
      let '(over, s') := run_call fuel s call in
      if over then run_calls fuel later s' else s'
  end.

(** A run of calls of [random], given by their seeds: the numbers
    returned, in the order of the calls. *)
Fixpoint random_values (calls : list (option string)) : M RandomState (list Q) :=
  match calls with
  | [] => ret []
  | seed :: later =>
      v <~ random seed ;;
      vs <~ random_values later ;;
      ret (v :: vs)
  end.

(** The numbers that a generator built from [seed] yields from its call
    number [from] on, [n] of them. *)
Definition generator_stream (seed : option string) (from n : nat) : list Q :=
  (λ i, (prng_call (advance i (seedrandom seed))).1) <$> seq from n.

(** Of the numbers returned by a run, those returned to the calls with
    this seed. *)
Definition values_for (seed : option string)
    (calls : list (option string)) (values : list Q) : list Q :=
  (filter (λ cv, cv.1 = seed) (zip calls values)).*2.

(** *** The page: the box [div]s and the effects of [GameLayer] *)

(** What the game loop writes to a [div]: [style.width], [style.height] and
    [style.transform]. *)
Record DivStyle : Type := mkDivStyle {
  style_width : string;
  style_height : string;
  style_transform : string;
}.

(** The page around the session.  [boxDivsRef.current] is an object literal
    that maps a box id to a ref object, given here by what the [current] of
    the ref holds: [None] is [null], [Some d] the [div] element [d] that
    React has attached.  [divs] holds the style of the [div] elements. *)
Record Page : Type := mkPage {
  session : State;
  boxDivsRef : gmap string (option nat);
  divs : gmap nat DivStyle;
}.

Definition set_session (s : State) (page : Page) : Page :=
  {| session := s; boxDivsRef := boxDivsRef page; divs := divs page |}.
Definition set_boxDivsRef (refs : gmap string (option nat)) (page : Page) : Page :=
  {| session := session page; boxDivsRef := refs; divs := divs page |}.
Definition set_divs (d : gmap nat DivStyle) (page : Page) : Page :=
  {| session := session page; boxDivsRef := boxDivsRef page; divs := d |}.

(** The page when [GameLayer] has mounted and [Physics.create] has
    resolved. *)
Definition Page_init (now_start now_last : float) : Page :=
  {| session := State_init now_start now_last; boxDivsRef := ∅; divs := ∅ |}.

(** Running a computation of the session inside the page. *)
Definition with_session {A : Type} (m : M State A) : M Page A :=
  λ page, let '(r, s) := m (session page) in (r, set_session s page).

(** What [o[key]] finds in an object literal used as a dictionary: an own
    property, a member of [Object.prototype], or nothing ([undefined]). *)
Inductive Property (V : Type) : Type :=
| Own (value : V)
| Inherited
| Absent.
Arguments Own {V} value.
Arguments Inherited {V}.
Arguments Absent {V}.

Definition js_get {V : Type} (key : string) (o : gmap string V) : Property V :=
  match o !! key with
  | Some value => Own value
  | None => if bool_decide (key ∈ Object_prototype) then Inherited else Absent
  end.

(** The three assignments to [div.style], for a box. *)
Definition box_style (box : Box) : DivStyle :=
  {| style_width := number_to_string (box_w box * px) +:+ "px";
     style_height := number_to_string (box_h box * px) +:+ "px";
     style_transform :=
       "translate(" +:+ number_to_string (box_x box * px) +:+ "px,"
       +:+ number_to_string (box_y box * px) +:+ "px)" |}.

(** [for (const id in boxes) { ... }] of the game loop, over the ids in the
    order in which [for ... in] yields them.  [boxes[id]] is the box of an
    enumerated id; an id without a box makes [box.id] throw.  Destructuring
    [{ current: div }] throws on [undefined]; a member of
    [Object.prototype] has no [current], and so has a ref that is not
    attached: the loop goes on to the next id. *)
Fixpoint animate_box_divs (ids : list string) (page : Page) : result unit * Page :=
  match ids with
  | [] => (Ok tt, page)
  | id :: rest =>
      match registry_get id (session page) with
      | None => (Throw "TypeError: Cannot read properties of undefined (reading 'id')", page)
      | Some box =>
          match js_get (box_id box) (boxDivsRef page) with
          | Absent =>
              (Throw "TypeError: Cannot destructure property 'current' of undefined", page)
          | Inherited | Own None => animate_box_divs rest page
          | Own (Some div) =>
              animate_box_divs rest (set_divs (<[div := box_style box]> (divs page)) page)
          end
      end
  end.

(** The loop of the animation callback with its whole body: the step, then
    the styling of the box [div]s.  [for_in] is the enumeration of the ids
    of [physics.boxes] by the engine. *)
Fixpoint frames_loop_page (for_in : State → list string) (fuel : nat)
    (pastFrames fastForwardFrames f : float) (page : Page) : outcome unit * Page :=
  if PrimFloat.ltb f fastForwardFrames then
    match fuel with
    | O => (Running, page)
    | S fuel =>
        let frame := PrimFloat.add pastFrames f in
        match with_session (emit (Stepped frame) ;;; step (Some loop_callback)) page with
        | (Ok _, page1) =>
            match animate_box_divs (for_in (session page1)) page1 with
            | (Ok _, page2) =>
                frames_loop_page for_in fuel pastFrames fastForwardFrames
                  (PrimFloat.add f 1) page2
            | (Throw message, page2) => (Returned (Throw message), page2)
            end
        | (Throw message, page1) => (Returned (Throw message), page1)
        end
    end
  else (Returned (Ok tt), page).

(** The animation callback with its whole body. *)
Definition onAnimationFrame_page (for_in : State → list string) (fuel : nat)
    (stepMs time : float) : Page → outcome unit * Page :=
  and_then
    (with_session
       (modify (λ s, set_physics
                       (set_startTime (nullish (Some (startTime (physics s))) time) (physics s)) s)) ;;;
     with_session
       (modify (λ s, set_physics
                       (set_lastTime (nullish (Some (lastTime (physics s))) time) (physics s)) s)) ;;;
     startTime <~ with_session (gets (λ s, startTime (physics s))) ;;
     lastTime <~ with_session (gets (λ s, lastTime (physics s))) ;;
     let pastFrames :=
       Binary64.Math_floor (PrimFloat.div (PrimFloat.sub lastTime startTime) stepMs) in
     let allFrames :=
       Binary64.Math_floor (PrimFloat.div (PrimFloat.sub time startTime) stepMs) in
     let fastForwardFrames := PrimFloat.sub allFrames pastFrames in
     (if Binary64.truthy fastForwardFrames
      then with_session (modify (λ s, set_physics (set_lastTime time (physics s)) s))
      else ret tt) ;;;
     ret (pastFrames, fastForwardFrames))
    (λ '(pastFrames, fastForwardFrames),
       frames_loop_page for_in fuel pastFrames fastForwardFrames 0%float).

(** The effect that populates the physics:
    [const boxes = [physics.add({})]], then
    [for (const { id } of boxes) boxDivsRef.current[id] = createRef()]. *)
Definition populate : M Page unit :=
  box <~ with_session (add no_fields) ;;
  λ page,
    match heap (session page) !! box with
    | Some stored =>
        (Ok tt, set_boxDivsRef (<[box_id stored := None]> (boxDivsRef page)) page)
    | None => (Throw "TypeError: Cannot destructure property 'id' of undefined", page)
    end.

(** What happens on the page: the populating effect runs, React attaches
    a [div] to the ref of a box id, the browser calls the animation
    callback. *)
Inductive PageEvent : Type :=
| Populate
| Attach (id : string) (div : nat)
| Frame (ms time : float).

(** React sets [current] of the ref object that is held under the id, when
    there is one. *)
Definition attach (id : string) (div : nat) (page : Page) : Page :=
  match boxDivsRef page !! id with
  | Some _ => set_boxDivsRef (<[id := Some div]> (boxDivsRef page)) page
  | None => page
  end.

(** The page after an event, and whether the event is over. *)
Definition run_event (for_in : State → list string) (fuel : nat)
    (page : Page) (event : PageEvent) : bool * Page :=
  match event with
  | Populate => (true, (populate page).2)
  | Attach id div => (true, attach id div page)
  | Frame ms time =>
      let out := onAnimationFrame_page for_in fuel ms time page in (returned out.1, out.2)
  end.

(** The page after a sequence of events, or where it is when a callback
    does not return. *)
Fixpoint run_events (for_in : State → list string) (fuel : nat)
    (events : list PageEvent) (page : Page) : Page :=
  match events with
  | [] => page
  | event :: later =>
      let '(over, page') := run_event for_in fuel page event in
      if over then run_events for_in fuel later page' else page'
  end.

(** [for_in] yields each registered id once and nothing else. *)
Definition enumerates (for_in : State → list string) : Prop :=
  ∀ s, NoDup (for_in s) ∧ ∀ id, id ∈ for_in s ↔ is_Some (boxes (physics s) !! id).

(** Every registered box has a ref object for its [div]. *)
Definition page_wf (page : Page) : Prop :=
  registry_wf (session page)
  ∧ ∀ id, is_Some (boxes (physics (session page)) !! id) → is_Some (boxDivsRef page !! id).

(** No [div] is attached to the refs of two boxes. *)
Definition attached_once (page : Page) : Prop :=
  ∀ id1 id2 box1 box2 div,
    registry_get id1 (session page) = Some box1 →
    registry_get id2 (session page) = Some box2 →
    boxDivsRef page !! box_id box1 = Some (Some div) →
    boxDivsRef page !! box_id box2 = Some (Some div) → box1 = box2.

(** Every attached [div] of a registered box shows the style of the box. *)
Definition styled (page : Page) (d : gmap nat DivStyle) : Prop :=
  ∀ id box div,
    registry_get id (session page) = Some box →
    boxDivsRef page !! box_id box = Some (Some div) →
    d !! div = Some (box_style box).

End Application.

Arguments Own {V} value.
Arguments Inherited {V}.
Arguments Absent {V}.

(** An enumeration of the registered ids, for examples. *)
Definition key_list `{Host} (s : State) : list string :=
  (map_to_list (boxes (physics s))).*1.

(** The page after the populating effect. *)
Definition populated_page : @Page counting_host :=
  run_events key_list 0 [Populate] (Page_init 0 0).

(** The page after the populating effect and the attachment of the [div]
    number 3 to the ref of the box. *)
Definition attached_page : @Page counting_host :=
  run_events key_list 0 [Populate; Attach "0.07" 3] (Page_init 0 0).


(** ** Facts about binary64 *)

(** The whole numbers up to [2^53] are binary64 numbers, on which the
    addition, the subtraction and the comparison of binary64 are those of
    the integers.  The proofs go through the specification of the
    primitive floats: a number is a sign, a mantissa and an exponent, and
    an operation computes on the mantissas and rounds the result. *)

Lemma Pos_iter_xO (m d : positive) : Pos.iter xO m d = Binary64.shl m (Pos.to_nat d).
Proof. unfold Binary64.shl. by rewrite Pos2Nat.inj_iter. Qed.

Lemma shl_Z (m : positive) (n : nat) : Z.pos (Binary64.shl m n) = (Z.pos m * 2 ^ Z.of_nat n)%Z.
Proof.
  induction n as [|n IH]; [cbn; lia |].
  change (Binary64.shl m (S n)) with (xO (Binary64.shl m n)). rewrite Pos2Z.inj_xO, IH.
  rewrite Nat2Z.inj_succ, Z.pow_succ_r by lia. lia.
Qed.

Lemma digits_shl (m : positive) (n : nat) :
  Z.pos (digits2_pos (Binary64.shl m n)) = (Z.pos (digits2_pos m) + Z.of_nat n)%Z.
Proof.
  induction n as [|n IH]; [cbn; lia |].
  change (Binary64.shl m (S n)) with (xO (Binary64.shl m n)). cbn [digits2_pos].
  rewrite Pos2Z.inj_succ, IH. lia.
Qed.

Lemma iter_pos_nat {A : Type} (f : A → A) (p : positive) (x : A) :
  SpecFloat.iter_pos f p x = Nat.iter (Pos.to_nat p) f x.
Proof.
  revert x. induction p as [p IH|p IH|]; intros x; cbn [SpecFloat.iter_pos].
  - rewrite !IH, Pos2Nat.inj_xI. 
    replace (S (2 * Pos.to_nat p)) with (Pos.to_nat p + (Pos.to_nat p + 1))%nat by lia.
    rewrite !Nat.iter_add. cbn. done.
  - rewrite !IH, Pos2Nat.inj_xO.
    replace (2 * Pos.to_nat p)%nat with (Pos.to_nat p + Pos.to_nat p)%nat by lia.
    by rewrite Nat.iter_add.
  - done.
Qed.

Lemma shr_1_exact (m : positive) (n : nat) :
  Nat.iter n shr_1 {| shr_m := Z.pos (Binary64.shl m n); shr_r := false; shr_s := false |}
  = {| shr_m := Z.pos m; shr_r := false; shr_s := false |}.
Proof.
  induction n as [|n IH]; [done |].
  rewrite Nat.iter_succ_r. change (Binary64.shl m (S n)) with (xO (Binary64.shl m n)).
  cbn [shr_1 orb]. exact IH.
Qed.

Lemma fexp_normal (E : Z) : (-1074 ≤ E)%Z → fexp prec emax (53 + E) = E.
Proof. intros HE. unfold fexp, emin, prec, emax. lia. Qed.

Lemma binary_round_aux_canonical (s : bool) (M : positive) (E : Z) :
  Z.pos (digits2_pos M) = 53%Z → (-1074 ≤ E ≤ 971)%Z →
  binary_round_aux prec emax s (Z.pos M) E loc_Exact = S754_finite s M E.
Proof.
  intros HM HE. unfold binary_round_aux, shr_fexp. cbn [Zdigits2 shr_record_of_loc].
  rewrite HM, fexp_normal, Z.sub_diag by lia. cbn [shr loc_of_shr_record shr_m round_nearest_even].
  cbn [Zdigits2 shr_record_of_loc]. rewrite HM, fexp_normal, Z.sub_diag by lia. cbn [shr shr_m].
  unfold emax, prec. by rewrite (proj2 (Z.leb_le _ _)) by lia.
Qed.

Lemma binary_round_down (s : bool) (M : positive) (E : Z) (n : nat) :
  Z.pos (digits2_pos M) = 53%Z → (-1074 ≤ E ≤ 971)%Z →
  binary_round prec emax s (Binary64.shl M n) (E - Z.of_nat n) = S754_finite s M E.
Proof.
  intros HM HE. destruct n as [|n].
  { change (Binary64.shl M 0) with M. change (Z.of_nat 0) with 0%Z. rewrite Z.sub_0_r. unfold binary_round.
    rewrite HM, fexp_normal by lia. unfold shl_align. rewrite Z.sub_diag.
    by apply binary_round_aux_canonical. }
  unfold binary_round. rewrite digits_shl, HM.
  replace (53 + Z.of_nat (S n) + (E - Z.of_nat (S n)))%Z with (53 + E)%Z by lia.
  rewrite fexp_normal by lia. unfold shl_align.
  replace (E - (E - Z.of_nat (S n)))%Z with (Z.pos (Pos.of_succ_nat n)) by lia.
  unfold binary_round_aux at 1, shr_fexp at 1. cbn [Zdigits2 shr_record_of_loc].
  rewrite digits_shl, HM.
  replace (53 + Z.of_nat (S n) + (E - Z.of_nat (S n)))%Z with (53 + E)%Z by lia.
  rewrite fexp_normal by lia.
  replace (E - (E - Z.of_nat (S n)))%Z with (Z.pos (Pos.of_succ_nat n)) by lia.
  cbn [shr]. rewrite iter_pos_nat, SuccNat2Pos.id_succ, shr_1_exact.
  cbn [loc_of_shr_record shr_m round_nearest_even].
  replace (E - Z.of_nat (S n) + Z.pos (Pos.of_succ_nat n))%Z with E by lia.
  pose proof (binary_round_aux_canonical s M E HM HE) as Haux.
  unfold binary_round_aux in Haux.
  unfold shr_fexp at 1 in Haux. cbn [Zdigits2 shr_record_of_loc] in Haux.
  rewrite HM, fexp_normal, Z.sub_diag in Haux by lia.
  cbn [shr loc_of_shr_record shr_m round_nearest_even] in Haux. exact Haux.
Qed.

Lemma binary_round_up (s : bool) (m : positive) (E : Z) (n : nat) :
  Z.pos (digits2_pos (Binary64.shl m n)) = 53%Z → (-1074 ≤ E ≤ 971)%Z →
  binary_round prec emax s m (E + Z.of_nat n) = S754_finite s (Binary64.shl m n) E.
Proof.
  intros HM HE. destruct n as [|n].
  { change (Binary64.shl m 0) with m in *. change (Z.of_nat 0) with 0%Z. rewrite Z.add_0_r.
    pose proof (binary_round_down s m E 0 HM HE) as Hdown.
    change (Binary64.shl m 0) with m in Hdown. change (Z.of_nat 0) with 0%Z in Hdown.
    by rewrite Z.sub_0_r in Hdown. }
  unfold binary_round. rewrite digits_shl in HM.
  replace (Z.pos (digits2_pos m) + (E + Z.of_nat (S n)))%Z with (53 + E)%Z by lia.
  rewrite fexp_normal by lia. unfold shl_align.
  replace (E - (E + Z.of_nat (S n)))%Z with (Z.neg (Pos.of_succ_nat n)) by lia.
  rewrite Pos_iter_xO, SuccNat2Pos.id_succ.
  apply binary_round_aux_canonical; [by rewrite digits_shl | done].
Qed.

Lemma digits2_size (p : positive) : digits2_pos p = Pos.size p.
Proof. induction p as [p IH|p IH|]; cbn; by rewrite ?IH. Qed.

Lemma digits_bounds (p : positive) :
  (2 ^ (Z.pos (digits2_pos p) - 1) ≤ Z.pos p < 2 ^ Z.pos (digits2_pos p))%Z.
Proof.
  rewrite digits2_size. split.
  - pose proof (Pos.size_le p) as Hle.
    apply Pos2Z.pos_le_pos in Hle. rewrite Pos2Z.inj_pow in Hle.
    change (Z.pos p~0) with (2 * Z.pos p)%Z in Hle.
    replace (Z.pos (Pos.size p)) with (Z.succ (Z.pos (Pos.size p) - 1)) in Hle by lia.
    rewrite Z.pow_succ_r in Hle by lia. lia.
  - pose proof (Pos.size_gt p) as Hgt.
    apply Pos2Z.pos_lt_pos in Hgt. by rewrite Pos2Z.inj_pow in Hgt.
Qed.

Lemma digits_le (p : positive) (d : Z) :
  (Z.pos p < 2 ^ d)%Z → (0 ≤ d)%Z → (Z.pos (digits2_pos p) ≤ d)%Z.
Proof.
  intros Hp Hd. destruct (Z.le_gt_cases (Z.pos (digits2_pos p)) d) as [|Hgt]; [done |].
  pose proof (digits_bounds p) as [Hlow _].
  assert (2 ^ d ≤ 2 ^ (Z.pos (digits2_pos p) - 1))%Z by (apply Z.pow_le_mono_r; lia).
  lia.
Qed.

Lemma whole_spec (n : Z) :
  (0 ≤ n < 2 ^ 63)%Z → Prim2SF (Binary64.whole n) = binary_normalize prec emax n 0 false.
Proof.
  intros Hn. unfold Binary64.whole. rewrite FloatAxioms.of_uint63_spec, Uint63.of_Z_spec.
  rewrite Z.mod_small; [done |]. done.
Qed.


Lemma mantissa_digits (p : positive) :
  (Z.pos p < 2 ^ 53)%Z → Z.pos (digits2_pos (Binary64.mantissa p)) = 53%Z.
Proof.
  intros Hp. pose proof (digits_le p 53 Hp). unfold Binary64.mantissa. rewrite digits_shl. lia.
Qed.

Lemma whole_pos (p : positive) :
  (Z.pos p < 2 ^ 53)%Z →
  Prim2SF (Binary64.whole (Z.pos p)) = S754_finite false (Binary64.mantissa p) (Binary64.exponent p).
Proof.
  intros Hp. pose proof (digits_le p 53 Hp ltac:(lia)) as Hd.
  rewrite whole_spec by lia. cbn [binary_normalize].
  pose proof (binary_round_up false p (Binary64.exponent p) (Z.to_nat (53 - Z.pos (digits2_pos p)))) as Hup.
  unfold Binary64.exponent in *.
  replace (Z.pos (digits2_pos p) - 53 + Z.of_nat (Z.to_nat (53 - Z.pos (digits2_pos p))))%Z
    with 0%Z in Hup by lia.
  apply Hup; [by apply mantissa_digits | lia].
Qed.

Lemma mantissa_Z (p : positive) :
  (Z.pos p < 2 ^ 53)%Z →
  Z.pos (Binary64.mantissa p) = (Z.pos p * 2 ^ (- Binary64.exponent p))%Z.
Proof.
  intros Hp. pose proof (digits_le p 53 Hp ltac:(lia)) as Hd.
  unfold Binary64.mantissa, Binary64.exponent. rewrite shl_Z. f_equal. f_equal. lia.
Qed.



Lemma whole_canonical (n : Z) :
  (0 < n ≤ 2 ^ 53)%Z →
  ∃ M E, Prim2SF (Binary64.whole n) = S754_finite false M E
         ∧ Z.pos (digits2_pos M) = 53%Z
         ∧ (-52 ≤ E ≤ 1)%Z
         ∧ (Z.pos M * 2 ^ (E + 52) = n * 2 ^ 52)%Z.
Proof.
  intros Hn. destruct (Z.eq_dec n (2 ^ 53)%Z) as [->|Hmax].
  { exists 4503599627370496%positive, 1%Z.
    refine (conj _ (conj _ (conj _ _))); [by vm_compute | done | lia | done]. }
  destruct n as [|p|p]; [lia | | lia].
  assert (Hp : (Z.pos p < 2 ^ 53)%Z) by lia.
  pose proof (digits_le p 53 Hp ltac:(lia)) as Hd.
  pose proof (Pos2Z.is_pos (digits2_pos p)) as Hdpos.
  exists (Binary64.mantissa p), (Binary64.exponent p).
  refine (conj _ (conj _ (conj _ _)));
    [by apply whole_pos | by apply mantissa_digits | unfold Binary64.exponent; lia |].
  rewrite mantissa_Z by done. rewrite <- Z.mul_assoc, <- Z.pow_add_r by (unfold Binary64.exponent; lia).
  f_equal. f_equal. lia.
Qed.

Lemma compare_canonical (M1 M2 : positive) (E1 E2 : Z) :
  Z.pos (digits2_pos M1) = 53%Z → Z.pos (digits2_pos M2) = 53%Z →
  (-52 ≤ E1)%Z → (-52 ≤ E2)%Z →
  SFcompare (S754_finite false M1 E1) (S754_finite false M2 E2)
  = Some (Z.pos M1 * 2 ^ (E1 + 52) ?= Z.pos M2 * 2 ^ (E2 + 52))%Z.
Proof.
  intros H1 H2 HE1 HE2. cbn [SFcompare]. f_equal.
  pose proof (digits_bounds M1) as [Hl1 Hu1]. pose proof (digits_bounds M2) as [Hl2 Hu2].
  rewrite H1 in Hl1, Hu1. rewrite H2 in Hl2, Hu2.
  change (2 ^ (53 - 1))%Z with 4503599627370496%Z in *.
  change (2 ^ 53)%Z with 9007199254740992%Z in *.
  destruct (Z.compare_spec E1 E2) as [->|Hlt|Hgt].
  - change (Pos.compare_cont Eq M1 M2) with (Z.pos M1 ?= Z.pos M2)%Z.
    apply Zmult_compare_compat_r. apply Z.lt_gt, Z.pow_pos_nonneg; lia.
  - symmetry. apply Z.compare_lt_iff.
    replace (E2 + 52)%Z with (E1 + 52 + (E2 - E1))%Z by lia.
    rewrite (Z.pow_add_r 2 (E1 + 52) (E2 - E1)) by lia.
    assert (HX : (0 < 2 ^ (E1 + 52))%Z) by (apply Z.pow_pos_nonneg; lia).
    assert (HY : (2 ^ 1 ≤ 2 ^ (E2 - E1))%Z) by (apply Z.pow_le_mono_r; lia).
    change (2 ^ 1)%Z with 2%Z in *.
    set (X := (2 ^ (E1 + 52))%Z) in *. set (Y := (2 ^ (E2 - E1))%Z) in *.
    apply Z.lt_le_trans with (9007199254740992 * X)%Z; [nia |].
    replace (Z.pos M2 * (X * Y))%Z with (Z.pos M2 * Y * X)%Z by ring.
    apply Z.mul_le_mono_nonneg_r; [lia | nia].
  - symmetry. apply Z.compare_gt_iff. apply Z.gt_lt.
    replace (E1 + 52)%Z with (E2 + 52 + (E1 - E2))%Z by lia.
    rewrite (Z.pow_add_r 2 (E2 + 52) (E1 - E2)) by lia.
    assert (HX : (0 < 2 ^ (E2 + 52))%Z) by (apply Z.pow_pos_nonneg; lia).
    assert (HY : (2 ^ 1 ≤ 2 ^ (E1 - E2))%Z) by (apply Z.pow_le_mono_r; lia).
    change (2 ^ 1)%Z with 2%Z in *.
    set (X := (2 ^ (E2 + 52))%Z) in *. set (Y := (2 ^ (E1 - E2))%Z) in *.
    apply Z.lt_gt. apply Z.lt_le_trans with (9007199254740992 * X)%Z; [nia |].
    replace (Z.pos M1 * (X * Y))%Z with (Z.pos M1 * Y * X)%Z by ring.
    apply Z.mul_le_mono_nonneg_r; [lia | nia].
Qed.

Lemma whole_0 : Binary64.whole 0 = 0%float.
Proof. by vm_compute. Qed.

Lemma whole_compare (a b : Z) :
  (0 ≤ a ≤ 2 ^ 53)%Z → (0 ≤ b ≤ 2 ^ 53)%Z →
  SFcompare (Prim2SF (Binary64.whole a)) (Prim2SF (Binary64.whole b)) = Some (a ?= b)%Z.
Proof.
  intros Ha Hb.
  destruct (Z.eq_dec a 0%Z) as [->|Ha0], (Z.eq_dec b 0%Z) as [->|Hb0].
  - done.
  - destruct (whole_canonical b) as (M & E & -> & _); [lia |].
    change (Prim2SF (Binary64.whole 0)) with (S754_zero false). cbn.
    destruct b; [lia | done | lia].
  - destruct (whole_canonical a) as (M & E & -> & _); [lia |].
    change (Prim2SF (Binary64.whole 0)) with (S754_zero false). cbn.
    destruct a; [lia | done | lia].
  - destruct (whole_canonical a) as (M1 & E1 & -> & HM1 & HE1 & Ha'); [lia |].
    destruct (whole_canonical b) as (M2 & E2 & -> & HM2 & HE2 & Hb'); [lia |].
    rewrite compare_canonical by (done || lia). rewrite Ha', Hb'.
    f_equal. symmetry. by apply Zmult_compare_compat_r.
Qed.

Lemma whole_ltb (a b : Z) :
  (0 ≤ a ≤ 2 ^ 53)%Z → (0 ≤ b ≤ 2 ^ 53)%Z →
  PrimFloat.ltb (Binary64.whole a) (Binary64.whole b) = (a <? b)%Z.
Proof.
  intros Ha Hb. rewrite FloatAxioms.ltb_spec. unfold SFltb.
  rewrite whole_compare by done. unfold Z.ltb. by destruct (a ?= b)%Z.
Qed.

Lemma whole_truthy (n : Z) : (0 < n ≤ 2 ^ 53)%Z → Binary64.truthy (Binary64.whole n) = true.
Proof.
  intros Hn. unfold Binary64.truthy. rewrite !FloatAxioms.eqb_spec. unfold SFeqb.
  rewrite <- whole_0, !whole_compare by lia.
  rewrite Z.compare_refl. by destruct (Z.compare_spec n 0); [lia | lia |].
Qed.

Lemma opp_whole_neg (n : Z) :
  (0 < n ≤ 2 ^ 53)%Z →
  PrimFloat.ltb 0 (- Binary64.whole n) = false ∧ Binary64.truthy (- Binary64.whole n) = true.
Proof.
  intros Hn. unfold Binary64.truthy.
  rewrite FloatAxioms.ltb_spec, !FloatAxioms.eqb_spec, FloatAxioms.opp_spec.
  destruct (whole_canonical n Hn) as (M & E & -> & _).
  unfold SFltb, SFeqb. cbn. rewrite Z.compare_refl, Pcompare_refl. done.
Qed.

Lemma binary_round_opp (s : bool) (m : positive) (e : Z) :
  binary_round prec emax (negb s) m e = SFopp (binary_round prec emax s m e).
Proof.
  unfold binary_round. destruct (shl_align _ _ _) as [mz ez].
  unfold binary_round_aux. destruct (shr_fexp _ _ _ _ _) as [mrs' e'].
  destruct (shr_fexp _ _ _ _ _) as [mrs'' e''].
  destruct (shr_m mrs''); [done | | done]. by destruct (_ <=? _)%Z.
Qed.

(** [y - x] is the opposite of [x - y], unless that is a zero. *)
Lemma sub_opp (x y : float) :
  (∀ s, Prim2SF (x - y) ≠ S754_zero s) → (y - x)%float = (- (x - y))%float.
Proof.
  intros Hnz. apply FloatAxioms.Prim2SF_inj.
  rewrite FloatAxioms.opp_spec. rewrite !FloatAxioms.sub_spec in *.
  destruct (Prim2SF x) as [sx|sx| |sx mx ex], (Prim2SF y) as [sy|sy| |sy my ey];
    try (by destruct sx, sy); try done.
  - destruct sx, sy; cbn in *; try done; by edestruct Hnz.
  - unfold FloatAxioms.SF64sub, SFsub in *. rewrite (Z.min_comm ey ex).
    set (a := cond_Zopp sx _) in *. set (b := cond_Zopp sy _) in *.
    replace (b - a)%Z with (- (a - b))%Z by lia.
    destruct (a - b)%Z as [|p|p]; cbn [Z.opp binary_normalize] in *.
    + by edestruct Hnz.
    + apply (binary_round_opp false).
    + change (- Z.neg p)%Z with (Z.pos p). cbn [binary_normalize]. pose proof (binary_round_opp true p (Z.min ex ey)) as Hopp. cbn [negb] in Hopp.
      rewrite Hopp. by destruct (binary_round _ _ _ _ _) as [[]|[]| |[] ? ?].
Qed.


Lemma binary_round_whole (s : bool) (p : positive) (k : nat) :
  (Z.pos p ≤ 2 ^ 53)%Z →
  binary_round prec emax s (Binary64.shl p k) (- Z.of_nat k) = binary_round prec emax s p 0.
Proof.
  intros Hp.
  assert (Hshift : ∀ (M : positive) (E : Z) (j : nat),
             Z.pos (digits2_pos M) = 53%Z → (-52 ≤ E ≤ 1)%Z →
             (Z.pos M * 2 ^ (E + 52) = Z.pos p * 2 ^ 52)%Z →
             binary_round prec emax s (Binary64.shl p j) (- Z.of_nat j) = S754_finite s M E).
  { intros M E j HM HE Hval.
    destruct (Z.le_gt_cases E (- Z.of_nat j)) as [Hle|Hgt].
    - (* the Binary64.mantissa is [Binary64.shl p j] shifted further *)
      replace (- Z.of_nat j)%Z with (E + Z.of_nat (Z.to_nat (- Z.of_nat j - E)))%Z by lia.
      assert (HMeq : M = Binary64.shl (Binary64.shl p j) (Z.to_nat (- Z.of_nat j - E))).
      { apply Pos2Z.inj. rewrite !shl_Z, Z2Nat.id by lia.
        assert (Hpow : (2 ^ Z.of_nat j * 2 ^ (- Z.of_nat j - E) * 2 ^ (E + 52) = 2 ^ 52)%Z).
        { rewrite <- !Z.pow_add_r by lia. f_equal. lia. }
        apply (Z.mul_cancel_r _ _ (2 ^ (E + 52))%Z); [apply Z.pow_nonzero; lia |].
        rewrite Hval, <- Hpow. ring. }
      rewrite HMeq. apply binary_round_up; [by rewrite <- HMeq | lia].
    - replace (- Z.of_nat j)%Z with (E - Z.of_nat (Z.to_nat (E + Z.of_nat j)))%Z by lia.
      assert (Hpeq : Binary64.shl p j = Binary64.shl M (Z.to_nat (E + Z.of_nat j))).
      { apply Pos2Z.inj. rewrite !shl_Z, Z2Nat.id by lia.
        assert (Hpow : (2 ^ (E + 52) * 2 ^ Z.of_nat j = 2 ^ (E + Z.of_nat j) * 2 ^ 52)%Z).
        { rewrite <- !Z.pow_add_r by lia. f_equal. lia. }
        apply (Z.mul_cancel_r _ _ (2 ^ 52)%Z); [done |].
        replace (Z.pos p * 2 ^ Z.of_nat j * 2 ^ 52)%Z
          with (Z.pos p * 2 ^ 52 * 2 ^ Z.of_nat j)%Z by ring.
        rewrite <- Hval, <- Z.mul_assoc, Hpow. ring. }
      rewrite Hpeq. apply binary_round_down; [done | lia]. }
  destruct (whole_canonical (Z.pos p)) as (M & E & _ & HM & HE & Hval); [lia |].
  rewrite (Hshift M E k HM HE Hval).
  pose proof (Hshift M E 0%nat HM HE Hval) as H0.
  change (Binary64.shl p 0) with p in H0. change (- Z.of_nat 0)%Z with 0%Z in H0. by rewrite H0.
Qed.

Lemma binary_normalize_whole (z : Z) (k : nat) :
  (Z.abs z ≤ 2 ^ 53)%Z →
  binary_normalize prec emax (z * 2 ^ Z.of_nat k) (- Z.of_nat k) false
  = binary_normalize prec emax z 0 false.
Proof.
  intros Hz. destruct z as [|p|p]; [done | |].
  - rewrite <- shl_Z. cbn [binary_normalize]. apply binary_round_whole. lia.
  - replace (Z.neg p * 2 ^ Z.of_nat k)%Z with (Z.neg (Binary64.shl p k)).
    2: { rewrite <- !Pos2Z.opp_pos, shl_Z. lia. }
    cbn [binary_normalize]. apply binary_round_whole. lia.
Qed.

Lemma wholeZ_spec (z : Z) :
  (Z.abs z ≤ 2 ^ 53)%Z → Prim2SF (Binary64.wholeZ z) = binary_normalize prec emax z 0 false.
Proof.
  intros Hz. destruct z as [|p|p].
  - apply whole_spec. lia.
  - apply whole_spec. lia.
  - change (Binary64.wholeZ (Z.neg p)) with (- Binary64.whole (Z.pos p))%float.
    rewrite FloatAxioms.opp_spec, whole_spec by lia. cbn [binary_normalize].
    symmetry. apply (binary_round_opp false).
Qed.

(** The signed Binary64.mantissa of a Binary64.whole number, aligned at an Binary64.exponent. *)
Lemma wholeZ_aligned (z : Z) :
  z ≠ 0%Z → (Z.abs z < 2 ^ 53)%Z →
  ∃ s M E, Prim2SF (Binary64.wholeZ z) = S754_finite s M E
           ∧ (-52 ≤ E ≤ 0)%Z
           ∧ ∀ ez, (-52 ≤ ez ≤ E)%Z →
                   cond_Zopp s (Z.pos (fst (shl_align M E ez))) = (z * 2 ^ (- ez))%Z.
Proof.
  intros Hz0 Hz.
  assert (Hpos : ∀ p s, (Z.pos p < 2 ^ 53)%Z →
            (-52 ≤ Binary64.exponent p ≤ 0)%Z
            ∧ ∀ ez, (-52 ≤ ez ≤ Binary64.exponent p)%Z →
                    cond_Zopp s (Z.pos (fst (shl_align (Binary64.mantissa p) (Binary64.exponent p) ez)))
                    = (cond_Zopp s (Z.pos p) * 2 ^ (- ez))%Z).
  { intros p s Hp. pose proof (digits_le p 53 Hp ltac:(lia)) as Hd.
    pose proof (Pos2Z.is_pos (digits2_pos p)) as Hdpos.
    split; [unfold Binary64.exponent; lia |]. intros ez Hez.
    assert (Hm : Z.pos (fst (shl_align (Binary64.mantissa p) (Binary64.exponent p) ez))
                 = (Z.pos p * 2 ^ (- ez))%Z).
    { unfold shl_align. destruct (ez - Binary64.exponent p)%Z as [|d|d] eqn:Hdiff; cbn [fst].
      - rewrite mantissa_Z by done. f_equal. f_equal. lia.
      - lia.
      - rewrite Pos_iter_xO, shl_Z, mantissa_Z by done.
        rewrite <- Z.mul_assoc, <- Z.pow_add_r by (unfold Binary64.exponent in *; lia).
        f_equal. f_equal. lia. }
    rewrite Hm. destruct s; cbn [cond_Zopp]; lia. }
  destruct z as [|p|p]; [done | |].
  - destruct (Hpos p false) as [HE Hal]; [lia |].
    exists false, (Binary64.mantissa p), (Binary64.exponent p). split_and!; [| lia | lia | done].
    unfold Binary64.wholeZ. cbn [Z.ltb Z.compare]. apply whole_pos. lia.
  - destruct (Hpos p true) as [HE Hal]; [lia |].
    exists true, (Binary64.mantissa p), (Binary64.exponent p). split_and!; [| lia | lia | done].
    change (Binary64.wholeZ (Z.neg p)) with (- Binary64.whole (Z.pos p))%float.
    rewrite FloatAxioms.opp_spec, whole_pos by lia. done.
Qed.

Lemma wholeZ_add (a b : Z) :
  (Z.abs a < 2 ^ 53)%Z → (Z.abs b < 2 ^ 53)%Z → (Z.abs (a + b) ≤ 2 ^ 53)%Z →
  (Binary64.wholeZ a + Binary64.wholeZ b)%float = Binary64.wholeZ (a + b).
Proof.
  intros Ha Hb Hab. apply FloatAxioms.Prim2SF_inj.
  rewrite FloatAxioms.add_spec, (wholeZ_spec (a + b)) by done.
  destruct (Z.eq_dec a 0%Z) as [->|Ha0].
  { rewrite Z.add_0_l, <- wholeZ_spec by lia.
    change (Prim2SF (Binary64.wholeZ 0)) with (S754_zero false).
    destruct (Z.eq_dec b 0%Z) as [->|Hb0]; [done |].
    by destruct (wholeZ_aligned b Hb0 Hb) as (s & M & E & -> & _). }
  destruct (Z.eq_dec b 0%Z) as [->|Hb0].
  { rewrite Z.add_0_r, <- wholeZ_spec by lia.
    change (Prim2SF (Binary64.wholeZ 0)) with (S754_zero false).
    by destruct (wholeZ_aligned a Ha0 Ha) as (s & M & E & -> & _). }
  destruct (wholeZ_aligned a Ha0 Ha) as (sa & Ma & Ea & -> & HEa & Hala).
  destruct (wholeZ_aligned b Hb0 Hb) as (sb & Mb & Eb & -> & HEb & Halb).
  unfold FloatAxioms.SF64add, SFadd.
  rewrite Hala, Halb by lia. rewrite <- Z.mul_add_distr_r.
  replace (Z.min Ea Eb) with (- Z.of_nat (Z.to_nat (- Z.min Ea Eb)))%Z at 2 by lia.
  replace (- Z.min Ea Eb)%Z with (Z.of_nat (Z.to_nat (- Z.min Ea Eb))) at 1 by lia.
  by apply binary_normalize_whole.
Qed.

Lemma wholeZ_sub (a b : Z) :
  (Z.abs a < 2 ^ 53)%Z → (Z.abs b < 2 ^ 53)%Z → (Z.abs (a - b) ≤ 2 ^ 53)%Z →
  (Binary64.wholeZ a - Binary64.wholeZ b)%float = Binary64.wholeZ (a - b).
Proof.
  intros Ha Hb Hab. apply FloatAxioms.Prim2SF_inj.
  rewrite FloatAxioms.sub_spec, (wholeZ_spec (a - b)) by done.
  destruct (Z.eq_dec b 0%Z) as [->|Hb0].
  { rewrite Z.sub_0_r, <- wholeZ_spec by lia.
    change (Prim2SF (Binary64.wholeZ 0)) with (S754_zero false).
    destruct (Z.eq_dec a 0%Z) as [->|Ha0]; [done |].
    by destruct (wholeZ_aligned a Ha0 Ha) as (s & M & E & -> & _). }
  destruct (wholeZ_aligned b Hb0 Hb) as (sb & Mb & Eb & Hbeq & HEb & Halb).
  destruct (Z.eq_dec a 0%Z) as [->|Ha0].
  { rewrite Z.sub_0_l, <- wholeZ_spec by lia.
    change (Prim2SF (Binary64.wholeZ 0)) with (S754_zero false). rewrite Hbeq. cbn.
    destruct b as [|p|p]; [done | |].
    - change (Binary64.wholeZ (- Z.pos p)) with (- Binary64.wholeZ (Z.pos p))%float.
      by rewrite FloatAxioms.opp_spec, Hbeq.
    - change (Binary64.wholeZ (Z.neg p)) with (- Binary64.whole (Z.pos p))%float in Hbeq.
      change (Binary64.wholeZ (- Z.neg p)) with (Binary64.whole (Z.pos p)).
      rewrite FloatAxioms.opp_spec in Hbeq.
      destruct (Prim2SF (Binary64.whole (Z.pos p))) as [| | |s' M' E']; try done.
      cbn in Hbeq. injection Hbeq as <- <- <-. by destruct s'. }
  destruct (wholeZ_aligned a Ha0 Ha) as (sa & Ma & Ea & -> & HEa & Hala).
  rewrite Hbeq.
  unfold FloatAxioms.SF64sub, SFsub.
  rewrite Hala, Halb by lia. rewrite <- Z.mul_sub_distr_r.
  replace (Z.min Ea Eb) with (- Z.of_nat (Z.to_nat (- Z.min Ea Eb)))%Z at 2 by lia.
  replace (- Z.min Ea Eb)%Z with (Z.of_nat (Z.to_nat (- Z.min Ea Eb))) at 1 by lia.
  by apply binary_normalize_whole.
Qed.

Lemma wholeZ_nonneg (n : Z) : (0 ≤ n)%Z → Binary64.wholeZ n = Binary64.whole n.
Proof. intros Hn. unfold Binary64.wholeZ. by rewrite (proj2 (Z.ltb_ge _ _)). Qed.

(** The increment of the loop counter is exact below [2^53] ... *)
Lemma whole_succ (n : Z) :
  (0 ≤ n < 2 ^ 53)%Z → PrimFloat.add (Binary64.whole n) 1 = Binary64.whole (n + 1).
Proof.
  intros Hn. rewrite <- !wholeZ_nonneg by lia.
  change 1%float with (Binary64.wholeZ 1). apply wholeZ_add; lia.
Qed.

(** ... and has no effect at [2^53]. *)
Lemma whole_succ_stuck :
  PrimFloat.add (Binary64.whole (2 ^ 53)) 1 = Binary64.whole (2 ^ 53).
Proof. by vm_compute. Qed.

Lemma sub_self_spec (v : float) :
  Prim2SF (PrimFloat.sub v v) = S754_zero false ∨ Prim2SF (PrimFloat.sub v v) = S754_nan.
Proof.
  rewrite FloatAxioms.sub_spec. unfold FloatAxioms.SF64sub.
  destruct (Prim2SF v) as [sign|sign| |sign m e]; cbn.
  - left. by destruct sign.
  - right. by destruct sign.
  - by right.
  - left. by rewrite Z.sub_diag.
Qed.

Lemma falsy_spec (x : float) :
  Binary64.truthy x = false
  ↔ (∃ sign, Prim2SF x = S754_zero sign) ∨ Prim2SF x = S754_nan.
Proof.
  unfold Binary64.truthy. rewrite !FloatAxioms.eqb_spec.
  change (Prim2SF 0) with (S754_zero false).
  destruct (Prim2SF x) as [sign|sign| |sign m e]; cbn.
  - split; [eauto | done].
  - destruct sign; cbn; split; try done; intros [[? ?]|?]; done.
  - split; [eauto | done].
  - unfold SFeqb. cbn.
    destruct sign; cbn; rewrite Z.compare_refl, Pos.compare_cont_refl; cbn;
      (split; [done | intros [[? ?]|?]; done]).
Qed.

(** A number that is falsy is not above zero: the loop is not entered. *)
Lemma falsy_not_positive (x : float) :
  Binary64.truthy x = false → PrimFloat.ltb 0 x = false.
Proof.
  intros Hfalsy. apply falsy_spec in Hfalsy.
  rewrite FloatAxioms.ltb_spec. change (Prim2SF 0) with (S754_zero false).
  destruct Hfalsy as [[sign ->] | ->]; done.
Qed.

(** A number above zero is truthy. *)
Lemma positive_truthy (x : float) :
  PrimFloat.ltb 0 x = true → Binary64.truthy x = true.
Proof.
  intros Hpos. destruct (Binary64.truthy x) eqn:Htruthy; [done |].
  by rewrite (falsy_not_positive x Htruthy) in Hpos.
Qed.

(** The difference of a number and itself is falsy. *)
Lemma sub_self_falsy (v : float) : Binary64.truthy (PrimFloat.sub v v) = false.
Proof. apply falsy_spec. destruct (sub_self_spec v); eauto. Qed.

Lemma whole_positive (n : Z) :
  (0 < n ≤ 2 ^ 53)%Z → PrimFloat.ltb 0 (Binary64.whole n) = true.
Proof.
  intros Hn. rewrite <- whole_0, whole_ltb by lia. apply Z.ltb_lt. lia.
Qed.

(** A number above [2^53] is above every value of the loop counter. *)
Lemma above_whole (x : float) (i : Z) :
  PrimFloat.ltb (Binary64.whole (2 ^ 53)) x = true →
  (0 ≤ i ≤ 2 ^ 53)%Z →
  PrimFloat.ltb (Binary64.whole i) x = true.
Proof.
  intros Habove Hi. rewrite FloatAxioms.ltb_spec in *.
  change (Prim2SF (Binary64.whole (2 ^ 53)))
    with (S754_finite false 4503599627370496 1) in Habove.
  destruct (Z.eq_dec i 0%Z) as [->|Hi0].
  { change (Prim2SF (Binary64.whole 0)) with (S754_zero false).
    destruct (Prim2SF x) as [sx|sx| |sx mx ex]; try done; by destruct sx. }
  destruct (whole_canonical i) as (M & E & -> & HM & HE & Hval); [lia |].
  destruct (Prim2SF x) as [sx|sx| |sx mx e2]; [done | by destruct sx | done |].
  destruct sx; [done |].
  unfold SFltb in *. cbn [SFcompare] in *.
  destruct (Z.compare_spec 1 e2) as [Heq|Hlt|Hgt]; [| | done].
  - subst e2. destruct (Z.compare_spec E 1) as [Heq'|Hlt'|Hgt']; [| done | lia].
    subst E. assert (M = 4503599627370496%positive) as ->; [| done].
    pose proof (digits_bounds M) as [Hlow _]. rewrite HM in Hlow.
    change (2 ^ (53 - 1))%Z with 4503599627370496%Z in Hlow.
    change (2 ^ (1 + 52))%Z with 9007199254740992%Z in Hval.
    change (2 ^ 52)%Z with 4503599627370496%Z in Hval.
    change (2 ^ 53)%Z with 9007199254740992%Z in Hi. lia.
  - destruct (Z.compare_spec E e2) as [Heq'|Hlt'|Hgt']; [lia | done | lia].
Qed.
Section Properties.

Context `{Host}.

(** *** The monad *)

Lemma set_trace_same (s : State) : set_trace (trace s) s = s.
Proof. by destruct s. Qed.

Lemma set_physics_same (s : State) : set_physics (physics s) s = s.
Proof. by destruct s. Qed.

Lemma set_startTime_same (p : Physics) : set_startTime (startTime p) p = p.
Proof. by destruct p. Qed.

Lemma set_lastTime_same (p : Physics) : set_lastTime (lastTime p) p = p.
Proof. by destruct p. Qed.

(** *** The loop of the scheduler *)

Lemma stepped_frames_Stepped (frames : list float) :
  stepped_frames (Stepped <$> frames) = frames.
Proof. induction frames as [|? ? IH]; cbn; [done | by rewrite IH]. Qed.

Lemma collisions_Stepped (frames : list float) :
  collisions (Stepped <$> frames) = [].
Proof. induction frames as [|? ? IH]; cbn; done. Qed.

(** The loop is over when the counter is not below the count. *)
Lemma frames_loop_skip (fuel : nat) (pastFrames fastForwardFrames f : float) (s : State) :
  PrimFloat.ltb f fastForwardFrames = false →
  frames_loop fuel pastFrames fastForwardFrames f s = (Returned (Ok tt), s).
Proof. intros Hge. destruct fuel; cbn; by rewrite Hge. Qed.

(** One iteration. *)
Lemma frames_loop_step (fuel : nat) (pastFrames fastForwardFrames f : float) (s : State) :
  PrimFloat.ltb f fastForwardFrames = true →
  frames_loop (S fuel) pastFrames fastForwardFrames f s
  = frames_loop fuel pastFrames fastForwardFrames (PrimFloat.add f 1)
      (set_trace (trace s ++ [Stepped (PrimFloat.add pastFrames f)]) s).
Proof. intros Hlt. cbn. by rewrite Hlt. Qed.

(** Whether or not the loop is over, it has called [step] for some frames
    and changed nothing else, and it has not thrown. *)
Lemma frames_loop_frame (fuel : nat) (pastFrames fastForwardFrames f : float) (s : State) :
  let out := frames_loop fuel pastFrames fastForwardFrames f s in
  (out.1 = Returned (Ok tt) ∨ out.1 = Running)
  ∧ ∃ frames, out.2 = set_trace (trace s ++ (Stepped <$> frames)) s.
Proof.
  revert f s. induction fuel as [|fuel IH]; intros f s; cbv zeta.
  - cbn. destruct (PrimFloat.ltb f fastForwardFrames); cbn.
    all: split; [auto | exists []; cbn; by rewrite app_nil_r, set_trace_same].
  - destruct (PrimFloat.ltb f fastForwardFrames) eqn:Hlt.
    + rewrite frames_loop_step by done.
      destruct (IH (PrimFloat.add f 1)
                  (set_trace (trace s ++ [Stepped (PrimFloat.add pastFrames f)]) s))
        as (Hout & frames & Hstate).
      split; [done |]. exists (PrimFloat.add pastFrames f :: frames).
      rewrite Hstate. destruct s; unfold set_trace; cbn. by rewrite <- app_assoc.
    + rewrite frames_loop_skip by done. cbn.
      split; [auto | exists []; cbn; by rewrite app_nil_r, set_trace_same].
Qed.

(** With a count that is a whole number up to [2^53], and a counter that
    is one, the loop calls [step] once for every whole number from the
    counter up to the count, in order, and returns. *)
Lemma frames_loop_whole (pastFrames : float) (n : Z) (k : nat) :
  ∀ (fuel : nat) (i : Z) (s : State),
    (0 ≤ i ≤ n)%Z → (n ≤ 2 ^ 53)%Z → k = Z.to_nat (n - i) → (k ≤ fuel)%nat →
    frames_loop fuel pastFrames (Binary64.whole n) (Binary64.whole i) s
    = (Returned (Ok tt),
       set_trace (trace s ++ (Stepped <$> ((λ j, PrimFloat.add pastFrames (Binary64.whole j))
                                           <$> seqZ i (n - i)))) s).
Proof.
  induction k as [|k IH]; intros fuel i s Hi Hn Hk Hfuel.
  - assert (i = n) as -> by lia.
    rewrite frames_loop_skip by (rewrite whole_ltb by lia; apply Z.ltb_irrefl).
    rewrite Z.sub_diag. cbn. by rewrite app_nil_r, set_trace_same.
  - destruct fuel as [|fuel]; [lia |].
    rewrite frames_loop_step by (rewrite whole_ltb by lia; apply Z.ltb_lt; lia).
    rewrite whole_succ by lia. rewrite (IH fuel (i + 1)%Z) by lia.
    f_equal. rewrite (seqZ_cons i) by lia. cbn.
    destruct s; unfold set_trace; cbn. rewrite <- app_assoc. cbn.
    replace (Z.succ i) with (i + 1)%Z by lia.
    replace (Z.pred (n - i)) with (n - (i + 1))%Z by lia. done.
Qed.

(** With a count above [2^53] the loop is never over: the counter stops
    growing at [2^53]. *)
Lemma frames_loop_running (pastFrames fastForwardFrames : float) :
  PrimFloat.ltb (Binary64.whole (2 ^ 53)) fastForwardFrames = true →
  ∀ (fuel : nat) (i : Z) (s : State),
    (0 ≤ i ≤ 2 ^ 53)%Z →
    let out := frames_loop fuel pastFrames fastForwardFrames (Binary64.whole i) s in
    out.1 = Running ∧ length (trace out.2) = (length (trace s) + fuel)%nat.
Proof.
  intros Habove. induction fuel as [|fuel IH]; intros i s Hi; cbv zeta.
  - cbn [frames_loop]. rewrite above_whole by done. cbn [fst snd]. split; [done | lia].
  - rewrite frames_loop_step by (by apply above_whole).
    destruct (Z.eq_dec i (2 ^ 53)%Z) as [->|Hne].
    + rewrite whole_succ_stuck.
      destruct (IH (2 ^ 53)%Z
                  (set_trace (trace s ++ [Stepped (PrimFloat.add pastFrames
                                                     (Binary64.whole (2 ^ 53)))]) s) Hi)
        as [Hout Hlen].
      split; [done |]. rewrite Hlen. cbn. rewrite length_app. cbn. lia.
    + rewrite whole_succ by lia.
      destruct (IH (i + 1)%Z
                  (set_trace (trace s ++ [Stepped (PrimFloat.add pastFrames
                                                     (Binary64.whole i))]) s))
        as [Hout Hlen]; [lia |].
      split; [done |]. rewrite Hlen. cbn. rewrite length_app. cbn. lia.
Qed.

(** The callback up to its loop: [lastTime] takes the sample when the
    count is truthy. *)
Lemma onAnimationFrame_body (fuel : nat) (ms time : float) (s : State) :
  onAnimationFrame fuel ms time s
  = frames_loop fuel
      (Binary64.frame_index ms (startTime (physics s)) (lastTime (physics s)))
      (Binary64.fastForwardFrames ms (startTime (physics s)) (lastTime (physics s)) time)
      0%float
      (if Binary64.truthy
            (Binary64.fastForwardFrames ms (startTime (physics s)) (lastTime (physics s)) time)
       then set_physics (set_lastTime time (physics s)) s else s).
Proof.
  destruct s as [r hp [ms0 start last registry] events].
  unfold onAnimationFrame, and_then, bind, modify, gets, ret,
    Binary64.fastForwardFrames, Binary64.frame_index. cbn.
  by destruct (Binary64.truthy _).
Qed.

(** A tick whose count is not above zero. *)
Lemma onAnimationFrame_idle (fuel : nat) (ms time : float) (s : State) :
  let count :=
    Binary64.fastForwardFrames ms (startTime (physics s)) (lastTime (physics s)) time in
  PrimFloat.ltb 0 count = false →
  onAnimationFrame fuel ms time s
  = (Returned (Ok tt),
     if Binary64.truthy count then set_physics (set_lastTime time (physics s)) s else s).
Proof. intros count Hidle. rewrite onAnimationFrame_body. by apply frames_loop_skip. Qed.

(** A tick whose count is a whole number. *)
Lemma onAnimationFrame_whole (fuel : nat) (ms time : float) (s : State) (n : Z) :
  Binary64.fastForwardFrames ms (startTime (physics s)) (lastTime (physics s)) time
  = Binary64.whole n →
  (0 < n ≤ 2 ^ 53)%Z →
  (Z.to_nat n ≤ fuel)%nat →
  onAnimationFrame fuel ms time s
  = (Returned (Ok tt),
     {| rng := rng s; heap := heap s;
        physics := set_lastTime time (physics s);
        trace := trace s
                 ++ (Stepped <$> ((λ f, PrimFloat.add
                                          (Binary64.frame_index ms (startTime (physics s))
                                             (lastTime (physics s)))
                                          (Binary64.whole f)) <$> seqZ 0 n)) |}).
Proof.
  intros Hcount Hn Hfuel. rewrite onAnimationFrame_body, Hcount.
  rewrite whole_truthy by done. rewrite <- whole_0.
  rewrite (frames_loop_whole _ n (Z.to_nat n)) by lia.
  by rewrite Z.sub_0_r.
Qed.

(** Whatever the clock and the bound, a tick does not throw, calls [step]
    for some frames, sets [lastTime] to the sample when the count is truthy,
    and changes nothing else. *)
Lemma onAnimationFrame_frame (fuel : nat) (ms time : float) (s : State) :
  let count :=
    Binary64.fastForwardFrames ms (startTime (physics s)) (lastTime (physics s)) time in
  let out := onAnimationFrame fuel ms time s in
  (out.1 = Returned (Ok tt) ∨ out.1 = Running)
  ∧ rng out.2 = rng s
  ∧ heap out.2 = heap s
  ∧ physics out.2 = (if Binary64.truthy count then set_lastTime time (physics s)
                     else physics s)
  ∧ ∃ frames, trace out.2 = trace s ++ (Stepped <$> frames).
Proof.
  cbv zeta. rewrite onAnimationFrame_body.
  destruct (frames_loop_frame fuel
              (Binary64.frame_index ms (startTime (physics s)) (lastTime (physics s)))
              (Binary64.fastForwardFrames ms (startTime (physics s)) (lastTime (physics s)) time)
              0%float
              (if Binary64.truthy
                    (Binary64.fastForwardFrames ms (startTime (physics s))
                       (lastTime (physics s)) time)
               then set_physics (set_lastTime time (physics s)) s else s))
    as (Hout & frames & ->).
  split; [done |]. destruct (Binary64.truthy _); cbn; eauto.
Qed.

(** After a tick, the count of a tick at the same sample is falsy. *)
Lemma second_count_falsy (ms start last time : float) :
  let count := Binary64.fastForwardFrames ms start last time in
  let last1 := if Binary64.truthy count then time else last in
  Binary64.truthy (Binary64.fastForwardFrames ms start last1 time) = false.
Proof.
  cbv zeta. destruct (Binary64.truthy (Binary64.fastForwardFrames ms start last time)) eqn:Hfirst.
  - apply sub_self_falsy.
  - done.
Qed.

(** *** The random source *)

Lemma advance_S (n : nat) (gen : PRNG) :
  advance (S n) gen = (prng_call (advance n gen)).2.
Proof. done. Qed.

Lemma calls_with_snoc (seed c : option string) (calls : list (option string)) :
  calls_with seed (calls ++ [c])
  = (calls_with seed calls + if decide (c = seed) then 1 else 0)%nat.
Proof.
  unfold calls_with. rewrite filter_app, length_app. f_equal.
  rewrite filter_cons, filter_nil. by destruct (decide (c = seed)).
Qed.

Lemma calls_with_absent (seed : option string) (calls : list (option string)) :
  seed ∉ calls → calls_with seed calls = 0%nat.
Proof.
  intros Hnot. unfold calls_with.
  induction calls as [|c calls IH]; [done |].
  rewrite filter_cons. apply not_elem_of_cons in Hnot as [Hne Hnot].
  destruct (decide (c = seed)); [congruence | by apply IH].
Qed.

Lemma cache_inv_init : cache_inv [] random_init.
Proof.
  unfold cache_inv, random_init; cbn. split_and!.
  - intros seed. rewrite lookup_empty, elem_of_nil. split; [done | by intros []].
  - intros seed g. by rewrite lookup_empty.
  - intros seed1 seed2 g. by rewrite lookup_empty.
  - by rewrite map_size_empty.
Qed.

(** One call of [random], from a state left by earlier calls. *)
Lemma random_step (calls : list (option string)) (seed : option string) (s : RandomState) :
  cache_inv calls s →
  (random seed s).1 = Ok (prng_call (advance (calls_with seed calls) (seedrandom seed))).1
  ∧ cache_inv (calls ++ [seed]) (random seed s).2
  ∧ random_cache s ⊆ random_cache (random seed s).2
  ∧ length (generators (random seed s).2)
    = (if decide (seed ∈ calls) then length (generators s) else S (length (generators s))).
Proof.
  intros (Hdom & Hgen & Hinj & Hsize).
  assert (Hbound : ∀ sd g, random_cache s !! sd = Some g → (g < length (generators s))%nat).
  { intros sd g Hsd. eapply lookup_lt_Some. by apply Hgen. }
  unfold random, cache_has.
  destruct (random_cache s !! seed) as [g|] eqn:Hseed.
  - (* the seed has its generator *)
    rewrite bool_decide_eq_true_2 by eauto. cbn. rewrite Hseed.
    rewrite (Hgen _ _ Hseed).
    destruct (prng_call (advance (calls_with seed calls) (seedrandom seed))) as [v gen'] eqn:Hcall.
    cbn. assert (Hin : seed ∈ calls) by (apply Hdom; eauto).
    rewrite decide_True by done. rewrite length_insert.
    split_and!; [done | | done | done].
    unfold cache_inv; cbn. split_and!.
    + intros sd. rewrite elem_of_app, list_elem_of_singleton, <- Hdom.
      split; [intros [?| ->]; done | by left].
    + intros sd g' Hsd. rewrite calls_with_snoc.
      destruct (decide (seed = sd)) as [<-|Hne].
      * assert (g' = g) as -> by congruence.
        rewrite list_lookup_insert_eq by eauto.
        rewrite Nat.add_1_r, advance_S. by rewrite Hcall.
      * rewrite Nat.add_0_r.
        rewrite list_lookup_insert_ne; [by apply Hgen |].
        intros ->. apply Hne. by eapply Hinj.
    + done.
    + by rewrite length_insert.
  - (* first call with the seed *)
    rewrite bool_decide_eq_false_2 by (intros [? ?]; congruence). cbn.
    rewrite lookup_insert_eq.
    rewrite list_lookup_middle by done.
    assert (Hnot : seed ∉ calls).
    { intros Hin. apply Hdom in Hin as [? ?]. congruence. }
    rewrite (calls_with_absent _ _ Hnot). cbn.
    destruct (prng_call (seedrandom seed)) as [v gen'] eqn:Hcall. cbn.
    rewrite decide_False by done. rewrite length_insert, length_app. cbn.
    split_and!; [done | | by apply insert_subseteq | lia].
    unfold cache_inv; cbn. split_and!.
    + intros sd. rewrite elem_of_app, list_elem_of_singleton, Hdom.
      destruct (decide (seed = sd)) as [<-|Hne].
      * rewrite lookup_insert_eq. split; eauto.
      * rewrite lookup_insert_ne by done. split; [intros [?|?]; [done | congruence] | by left].
    + intros sd g' Hsd. rewrite calls_with_snoc.
      destruct (decide (seed = sd)) as [<-|Hne].
      * rewrite lookup_insert_eq in Hsd. injection Hsd as <-.
        rewrite (calls_with_absent _ _ Hnot), Nat.add_0_l, advance_S.
        rewrite list_lookup_insert_eq by (rewrite length_app; cbn; lia).
        cbn. by rewrite Hcall.
      * rewrite lookup_insert_ne in Hsd by done. rewrite Nat.add_0_r.
        pose proof (Hbound _ _ Hsd).
        rewrite list_lookup_insert_ne by lia.
        rewrite lookup_app_l by done. by apply Hgen.
    + intros sd1 sd2 g'.
      destruct (decide (seed = sd1)) as [<-|Hne1], (decide (seed = sd2)) as [<-|Hne2];
        rewrite ?lookup_insert_eq, ?lookup_insert_ne by done; try done.
      * intros [= <-] Hsd2. apply Hbound in Hsd2. lia.
      * intros Hsd1 [= <-]. apply Hbound in Hsd1. lia.
      * apply Hinj.
    + rewrite map_size_insert_None by done.
      rewrite length_insert, length_app. cbn. lia.
Qed.

Lemma random_calls_inv (calls : list (option string)) :
  cache_inv calls (random_calls calls random_init).
Proof.
  induction calls as [|seed calls IH] using rev_ind.
  - apply cache_inv_init.
  - unfold random_calls. rewrite foldl_snoc.
    by apply (random_step calls seed).
Qed.

Lemma random_cache_after (seed : option string) (s : RandomState) :
  random_cache (random seed s).2
  = if cache_has seed s then random_cache s
    else <[seed := length (generators s)]> (random_cache s).
Proof.
  unfold random. destruct (cache_has seed s); cbn.
  - destruct (random_cache s !! seed) as [g|]; [| done].
    destruct (generators s !! g) as [gen|]; [| done]. by destruct (prng_call gen).
  - rewrite lookup_insert_eq, list_lookup_middle by done.
    by destruct (prng_call (seedrandom seed)).
Qed.

Lemma random_calls_app (calls more : list (option string)) (s : RandomState) :
  random_calls (calls ++ more) s = random_calls more (random_calls calls s).
Proof. apply foldl_app. Qed.

Lemma random_calls_grow (calls more : list (option string)) :
  random_cache (random_calls calls random_init)
  ⊆ random_cache (random_calls (calls ++ more) random_init).
Proof.
  induction more as [|seed more IH] using rev_ind.
  - by rewrite app_nil_r.
  - etrans; [exact IH |].
    rewrite app_assoc. unfold random_calls at 2. rewrite foldl_snoc.
    apply (random_step (calls ++ more) seed), random_calls_inv.
Qed.

(** C9: after any sequence of calls of [random], a call with a seed that
    was not used before constructs exactly one generator and caches it
    under that seed; a call with a seed used before constructs none and
    leaves the cache as it is; either way the value returned is the next
    value of the one generator built from that seed, which has been called
    exactly once per earlier call with that seed; no generator is cached
    under two seeds, there are as many generators as cached seeds, and the
    cache only grows, whatever calls follow. *)
Theorem random_one_generator_per_seed (calls : list (option string)) (seed : option string) :
  let s := random_calls calls random_init in
  let s' := (random seed s).2 in
  (random seed s).1 = Ok (prng_call (advance (calls_with seed calls) (seedrandom seed))).1
  ∧ (seed ∉ calls →
     random_cache s !! seed = None
     ∧ length (generators s') = S (length (generators s))
     ∧ random_cache s' = <[seed := length (generators s)]> (random_cache s))
  ∧ (seed ∈ calls →
     length (generators s') = length (generators s)
     ∧ random_cache s' = random_cache s)
  ∧ (∀ sd g, random_cache s' !! sd = Some g →
       generators s' !! g
       = Some (advance (calls_with sd (calls ++ [seed])) (seedrandom sd)))
  ∧ (∀ sd1 sd2 g, random_cache s' !! sd1 = Some g →
       random_cache s' !! sd2 = Some g → sd1 = sd2)
  ∧ size (random_cache s') = length (generators s')
  ∧ (∀ more, random_cache s ⊆ random_cache (random_calls more s)).
Proof.
  intros s s'.
  pose proof (random_calls_inv calls) as Hinv. fold s in Hinv.
  destruct (random_step calls seed s Hinv) as (Hval & Hinv' & Hsub & Hlen).
  fold s' in Hinv', Hsub, Hlen.
  destruct Hinv as (Hdom & _). destruct Hinv' as (_ & Hgen' & Hinj' & Hsize').
  pose proof (random_cache_after seed s) as Hcache. fold s' in Hcache.
  unfold cache_has in Hcache.
  split_and!; [done | | | done | done | done |].
  - intros Hnot. rewrite decide_False in Hlen by done.
    assert (Hnone : random_cache s !! seed = None).
    { apply eq_None_not_Some. by rewrite <- Hdom. }
    rewrite Hnone in Hcache.
    rewrite bool_decide_eq_false_2 in Hcache by (by intros [? ?]). done.
  - intros Hin. rewrite decide_True in Hlen by done.
    rewrite bool_decide_eq_true_2 in Hcache by (by apply Hdom). done.
  - intros more. subst s. rewrite <- random_calls_app. apply random_calls_grow.
Qed.

(** *** The box registry *)

(** Resolving the id touches nothing but the random source. *)
Lemma resolve_id_frame (arg : PartialBox) (s : State) :
  heap (resolve_id arg s).2 = heap s
  ∧ physics (resolve_id arg s).2 = physics s
  ∧ trace (resolve_id arg s).2 = trace s.
Proof.
  unfold resolve_id. destruct (opt_id arg); [done |].
  unfold bind, with_rng. destruct (random None (rng s)) as [[v|message] r]; done.
Qed.

(** A given id is taken as it is. *)
Lemma resolve_id_given (arg : PartialBox) (id : string) (s : State) :
  opt_id arg = Some id → resolve_id arg s = (Ok id, s).
Proof. unfold resolve_id. by intros ->. Qed.


(** [add] with an id that [in] finds in the registry object throws, and
    neither the registry nor the box store has changed. *)
Lemma add_taken (arg : PartialBox) (id : string) (s : State) :
  (resolve_id arg s).1 = Ok id →
  js_in id (boxes (physics s)) = true →
  add arg s = (Throw ("Assertion failed: Box@" +:+ id +:+ " already exists"),
               (resolve_id arg s).2)
  ∧ boxes (physics (add arg s).2) = boxes (physics s)
  ∧ heap (add arg s).2 = heap s.
Proof.
  intros Hid Hin. pose proof (resolve_id_frame arg s) as (Hheap & Hphysics & _).
  unfold add, bind, gets, assert.
  destruct (resolve_id arg s) as [r s0]. cbn in *. subst r. cbn.
  rewrite Hphysics, Hin. cbn. by rewrite Hphysics, Hheap.
Qed.

(** [add] with an id that [in] does not find stores a new box object under
    the id and returns the reference that it stored. *)
Lemma add_free (arg : PartialBox) (id : string) (s : State) :
  (resolve_id arg s).1 = Ok id →
  js_in id (boxes (physics s)) = false →
  add arg s
  = (Ok (length (heap s)),
     {| rng := rng (resolve_id arg s).2;
        heap := heap s ++ [ {| box_id := id;
                               box_x := nullish (opt_x arg) 0%Q;
                               box_y := nullish (opt_y arg) 0%Q;
                               box_w := nullish (opt_w arg) 1%Q;
                               box_h := nullish (opt_h arg) 1%Q;
                               box_kind := nullish (opt_kind arg) solid |} ];
        physics := set_boxes (<[id := length (heap s)]> (boxes (physics s))) (physics s);
        trace := trace s |}).
Proof.
  intros Hid Hin. pose proof (resolve_id_frame arg s) as (Hheap & Hphysics & Htrace).
  unfold add, bind, gets, assert, alloc, modify, ret.
  destruct (resolve_id arg s) as [r s0]. cbn in *. subst r. cbn.
  rewrite Hphysics, Hin. cbn. rewrite Hheap, Hphysics.
  unfold set_physics, set_heap. cbn. by rewrite Htrace.
Qed.

(** An id that is registered is found by [in]. *)
Lemma js_in_registered {V : Type} (id : string) (o : gmap string V) :
  is_Some (o !! id) → js_in id o = true.
Proof. intros Hsome. unfold js_in. by rewrite bool_decide_eq_true_2. Qed.

(** An id that is neither registered nor a property name of
    [Object.prototype] is not found by [in]. *)
Lemma js_in_free {V : Type} (id : string) (o : gmap string V) :
  o !! id = None → id ∉ Object_prototype → js_in id o = false.
Proof.
  intros Hnone Hnot. unfold js_in.
  rewrite !bool_decide_eq_false_2; [done | done | by rewrite Hnone; intros [? ?]].
Qed.

(** The uniqueness rule of the registry: a second [add] of an id that is
    already registered fails, and the registry keeps its size and its
    entries. *)
Lemma add_duplicate_fails (arg : PartialBox) (id : string) (s : State) :
  (resolve_id arg s).1 = Ok id →
  is_Some (boxes (physics s) !! id) →
  (add arg s).1 = Throw ("Assertion failed: Box@" +:+ id +:+ " already exists")
  ∧ boxes (physics (add arg s).2) = boxes (physics s)
  ∧ size (boxes (physics (add arg s).2)) = size (boxes (physics s)).
Proof.
  intros Hid Hreg.
  destruct (add_taken arg id s Hid (js_in_registered _ _ Hreg)) as (Hadd & Hboxes & _).
  rewrite Hboxes. by rewrite Hadd.
Qed.


(** C3, at the failing input: on a new [Physics], whose registry is empty,
    [add({ id: 'toString' })] throws "Box@toString already exists": the
    test [id in this.boxes] finds the method that the registry object
    inherits, although no box of that id was registered. *)
Theorem add_rejects_inherited_name (now_start now_last : float) :
  let s := State_init now_start now_last in
  boxes (physics s) !! "toString" = None
  ∧ add {| opt_id := Some "toString"; opt_x := None; opt_y := None;
           opt_w := None; opt_h := None; opt_kind := None |} s
    = (Throw "Assertion failed: Box@toString already exists", s).
Proof. done. Qed.

(** *** The step *)

(** [step] returns at once, whatever the callback. *)
Lemma step_spec (onCollision : option Callback) (s : State) :
  step onCollision s = (Ok tt, s).
Proof. done. Qed.

(** C2, as amended: for every physics state and every callback, a single
    call of [step] returns the state it was given: it invokes the callback
    on no pair of boxes, hence at most once for each unordered pair, and a
    callback that records its invocations has recorded none. *)
Theorem step_reports_each_pair_at_most_once (onCollision : option Callback) (s : State) :
  step onCollision s = (Ok tt, s)
  ∧ collisions (new_events s (step (Some recording_callback) s).2) = []
  ∧ ∀ box1 box2 : nat,
      (count_unordered box1 box2
         (collisions (new_events s (step (Some recording_callback) s).2)) ≤ 1)%nat.
Proof.
  rewrite !step_spec. cbn. unfold new_events. rewrite drop_all. cbn.
  split_and!; [done | done |]. intros box1 box2. unfold count_unordered. cbn. lia.
Qed.

(** C4, as amended: for every state in which a registered box of kind
    [sensor] overlaps a registered box of kind [solid], after [step] returns
    the two boxes are at the [x] and [y] positions they had before the call
    (the callback is not invoked). *)
Theorem step_moves_no_sensor_pair
    (onCollision : option Callback) (s : State) (id1 id2 : string) (box1 box2 : Box) :
  registry_get id1 s = Some box1 →
  registry_get id2 s = Some box2 →
  box_kind box1 = sensor →
  box_kind box2 = solid →
  overlaps box1 box2 = true →
  let s' := (step onCollision s).2 in
  (step onCollision s).1 = Ok tt
  ∧ (∃ box1', registry_get id1 s' = Some box1'
              ∧ box_x box1' = box_x box1 ∧ box_y box1' = box_y box1)
  ∧ (∃ box2', registry_get id2 s' = Some box2'
              ∧ box_x box2' = box_x box2 ∧ box_y box2' = box_y box2)
  ∧ trace s' = trace s.
Proof.
  intros Hbox1 Hbox2 _ _ _ s'. subst s'. rewrite step_spec. cbn.
  split_and!; [done | by exists box1 | by exists box2 | done].
Qed.

(** C5, as amended: [add] does not look at the dimensions: a box whose
    width or height is zero or negative, under an id that is free (the id
    that is given or, when none is given, the text of the next random
    number), is stored with these dimensions like any other box; and
    [step] never throws, whatever the boxes. *)
Theorem add_stores_any_dimensions (arg : PartialBox) (id : string) (s : State) :
  (resolve_id arg s).1 = Ok id →
  js_in id (boxes (physics s)) = false →
  (default 1 (opt_w arg) <= 0 ∨ default 1 (opt_h arg) <= 0)%Q →
  let s' := (add arg s).2 in
  (add arg s).1 = Ok (length (heap s))
  ∧ (∃ box, registry_get id s' = Some box
            ∧ box_w box = default 1%Q (opt_w arg)
            ∧ box_h box = default 1%Q (opt_h arg))
  ∧ ∀ (onCollision : option Callback) (s'' : State),
      is_throw (step onCollision s'').1 = false.
Proof.
  intros Hid Hfree _ s'. subst s'.
  rewrite (add_free arg id s Hid Hfree).
  unfold registry_get. cbn. rewrite lookup_insert_eq. cbn.
  rewrite list_lookup_middle by done.
  split_and!; [done | | done].
  eexists. split; [done |]. cbn. by destruct (opt_w arg), (opt_h arg).
Qed.

(** *** The frame scheduler *)

(** C1, as amended: for every tick, with [pastFrames] and the count
    [fastForwardFrames] as the callback computes them, in binary64.  When
    the count is not above zero (a zero, a negative number or [NaN]), the
    tick returns and has executed no step, and [lastTime] is set to the
    sampled time exactly when the count is truthy (not a zero, not [NaN]).
    When the count is a whole number [n] with [0 < n <= 2^53], the tick
    returns after exactly [n] steps, [lastTime] is set to the sampled time,
    and the steps are executed for the frames [pastFrames + 0],
    [pastFrames + 1], ..., [pastFrames + (n - 1)], in this order. *)
Theorem tick_runs_due_frames (fuel : nat) (ms time : float) (s : State) :
  let pastFrames :=
    Binary64.frame_index ms (startTime (physics s)) (lastTime (physics s)) in
  let count :=
    Binary64.fastForwardFrames ms (startTime (physics s)) (lastTime (physics s)) time in
  let out := onAnimationFrame fuel ms time s in
  (PrimFloat.ltb 0 count = false →
     out.1 = Returned (Ok tt)
     ∧ stepped_frames (new_events s out.2) = []
     ∧ lastTime (physics out.2)
       = if Binary64.truthy count then time else lastTime (physics s))
  ∧ (∀ n : Z,
       count = Binary64.whole n → (0 < n ≤ 2 ^ 53)%Z → (Z.to_nat n ≤ fuel)%nat →
       out.1 = Returned (Ok tt)
       ∧ length (stepped_frames (new_events s out.2)) = Z.to_nat n
       ∧ lastTime (physics out.2) = time
       ∧ stepped_frames (new_events s out.2)
         = (λ f : Z, PrimFloat.add pastFrames (Binary64.whole f)) <$> seqZ 0 n).
Proof.
  intros pastFrames count out. subst pastFrames count out. split.
  - intros Hidle. rewrite onAnimationFrame_idle by done. cbn [fst snd].
    unfold new_events. destruct (Binary64.truthy _); cbn; by rewrite drop_all.
  - intros n Hcount Hn Hfuel.
    rewrite (onAnimationFrame_whole fuel ms time s n Hcount Hn Hfuel). cbn [fst snd].
    unfold new_events. cbn [trace physics lastTime set_lastTime].
    rewrite drop_app_length, stepped_frames_Stepped.
    rewrite length_fmap, length_seqZ. done.
Qed.

(** C7: for every clock state, a second tick at the sampled time of the
    tick just run returns the session as it found it (clock, registry, box
    store and cache) and executes no step, whatever the bounds. *)
Theorem tick_again_same_time (fuel fuel' : nat) (ms time : float) (s : State) :
  let s1 := (onAnimationFrame fuel ms time s).2 in
  onAnimationFrame fuel' ms time s1 = (Returned (Ok tt), s1)
  ∧ stepped_frames (new_events s1 (onAnimationFrame fuel' ms time s1).2) = [].
Proof.
  intros s1.
  assert (Hsame : onAnimationFrame fuel' ms time s1 = (Returned (Ok tt), s1)).
  { destruct (onAnimationFrame_frame fuel ms time s) as (_ & _ & _ & Hphysics & _).
    fold s1 in Hphysics.
    assert (Hfalsy : Binary64.truthy
                       (Binary64.fastForwardFrames ms (startTime (physics s1))
                          (lastTime (physics s1)) time) = false).
    { rewrite Hphysics.
      pose proof (second_count_falsy ms (startTime (physics s)) (lastTime (physics s)) time)
        as Hsecond. cbv zeta in Hsecond.
      by destruct (Binary64.truthy _). }
    rewrite onAnimationFrame_idle by (by apply falsy_not_positive).
    by rewrite Hfalsy. }
  rewrite Hsame. split; [done |]. unfold new_events. cbn. by rewrite drop_all.
Qed.

Lemma opp_involutive (x : float) : PrimFloat.opp (PrimFloat.opp x) = x.
Proof.
  apply FloatAxioms.Prim2SF_inj. rewrite !FloatAxioms.opp_spec.
  by destruct (Prim2SF x) as [[]|[]| |[] ? ?].
Qed.

(** C10, as amended: a sample that is strictly earlier than [lastTime]
    need not give a negative count.  When the sample lies in the frame of
    [lastTime] (the two frame indices that the callback computes are the
    same), the tick returns, has executed no step and has kept [lastTime].
    When the count that the callback computes is negative, a whole number
    [-n] with [0 < n <= 2^53], the tick returns and has executed no step,
    and [lastTime] is overwritten with the sample; the next tick, at a
    sample [later] in the frame of the old [lastTime], then finds the
    opposite count [n]: it returns after [n] steps, for the frames
    [allFrames + 0], ..., [allFrames + (n - 1)] that begin at the frame of
    the rewound sample, which the clock had already passed. *)
Theorem rewound_clock_repeats_frames (fuel : nat) (ms time : float) (s : State) :
  let pastFrames :=
    Binary64.frame_index ms (startTime (physics s)) (lastTime (physics s)) in
  let allFrames := Binary64.frame_index ms (startTime (physics s)) time in
  let count :=
    Binary64.fastForwardFrames ms (startTime (physics s)) (lastTime (physics s)) time in
  let out1 := onAnimationFrame fuel ms time s in
  (allFrames = pastFrames →
     out1.1 = Returned (Ok tt)
     ∧ stepped_frames (new_events s out1.2) = []
     ∧ lastTime (physics out1.2) = lastTime (physics s))
  ∧ (∀ (n : Z) (later : float),
       count = PrimFloat.opp (Binary64.whole n) →
       (0 < n ≤ 2 ^ 53)%Z →
       Binary64.frame_index ms (startTime (physics s)) later = pastFrames →
       (Z.to_nat n ≤ fuel)%nat →
       let out2 := onAnimationFrame fuel ms later out1.2 in
       out1.1 = Returned (Ok tt)
       ∧ stepped_frames (new_events s out1.2) = []
       ∧ lastTime (physics out1.2) = time
       ∧ out2.1 = Returned (Ok tt)
       ∧ stepped_frames (new_events out1.2 out2.2)
         = (λ f : Z, PrimFloat.add allFrames (Binary64.whole f)) <$> seqZ 0 n
       ∧ lastTime (physics out2.2) = later).
Proof.
  intros pastFrames allFrames count out1. split.
  { intros Hsame.
    assert (Hfalsy : Binary64.truthy count = false).
    { subst count. unfold Binary64.fastForwardFrames. fold allFrames pastFrames.
      rewrite Hsame. apply sub_self_falsy. }
    subst out1. rewrite onAnimationFrame_idle by (by apply falsy_not_positive).
    fold count. rewrite Hfalsy. cbn. unfold new_events. by rewrite drop_all. }
  intros n later Hcount Hn Hlater Hfuel out2.
  destruct (opp_whole_neg n Hn) as [Hidle Htruthy].
  assert (Hout1 : out1 = (Returned (Ok tt), set_physics (set_lastTime time (physics s)) s)).
  { subst out1. rewrite onAnimationFrame_idle by (by fold count; rewrite Hcount).
    fold count. by rewrite Hcount, Htruthy. }
  assert (Hcount2 : Binary64.fastForwardFrames ms (startTime (physics out1.2))
                      (lastTime (physics out1.2)) later = Binary64.whole n).
  { rewrite Hout1. cbn. subst count. unfold Binary64.fastForwardFrames in *. rewrite Hlater.
    fold allFrames. fold pastFrames allFrames in Hcount.
    rewrite (sub_opp allFrames pastFrames).
    - by rewrite Hcount, opp_involutive.
    - intros sign. rewrite Hcount, FloatAxioms.opp_spec.
      destruct (whole_canonical n Hn) as (M & E & -> & _). done. }
  assert (Hout2 : out2
            = (Returned (Ok tt),
               {| rng := rng out1.2; heap := heap out1.2;
                  physics := set_lastTime later (physics out1.2);
                  trace := trace out1.2
                           ++ (Stepped <$> ((λ f, PrimFloat.add
                                                    (Binary64.frame_index ms
                                                       (startTime (physics out1.2))
                                                       (lastTime (physics out1.2)))
                                                    (Binary64.whole f)) <$> seqZ 0 n)) |})).
  { subst out2. by apply onAnimationFrame_whole. }
  rewrite Hout2. unfold new_events. cbn. rewrite drop_app_length, stepped_frames_Stepped.
  rewrite Hout1. cbn. rewrite drop_all. done.
Qed.

End Properties.

(** ** The examples of the specification, and where the code differs *)

(** *** Frame counts *)

(** C6: with [stepMs = 16.667], [startTime = 0] and [lastTime = 0], the tick
    at time 50 runs exactly the two steps of frames 0 and 1; the next tick,
    at time 100, runs the frames 2, 3 and 4: as many as
    [floor(100 / 16.667)] less the 2 already run, and neither frame 0 nor
    frame 1 again.  The literal [16.667] is the nearest binary64 number,
    as in JavaScript; three iterations or more are allowed to each tick. *)
Theorem frame_count_example (fuel : nat) :
  (3 ≤ fuel)%nat →
  let s0 := clock_state 16.667 0 0 in
  let raf := game_loop fuel s0 in
  let s1 := (raf 50%float s0).2 in
  let s2 := (raf 100%float s1).2 in
  (raf 50%float s0).1 = Returned (Ok tt)
  ∧ stepped_frames (new_events s0 s1) = [0; 1]%float
  ∧ (raf 100%float s1).1 = Returned (Ok tt)
  ∧ stepped_frames (new_events s1 s2) = [2; 3; 4]%float
  ∧ Binary64.whole (Z.of_nat (length (stepped_frames (new_events s1 s2))))
    = (Binary64.Math_floor (100 / 16.667) - 2)%float
  ∧ (0%float ∉ stepped_frames (new_events s1 s2))
  ∧ (1%float ∉ stepped_frames (new_events s1 s2)).
Proof.
  intros Hfuel. cbv zeta. unfold game_loop.
  change (stepMs (physics (clock_state 16.667 0 0))) with 16.667%float.
  assert (Hfirst : onAnimationFrame fuel 16.667 50 (clock_state 16.667 0 0)
                   = (Returned (Ok tt),
                      {| rng := random_init; heap := [];
                         physics := {| stepMs := 16.667; startTime := 0; lastTime := 50;
                                       boxes := ∅ |};
                         trace := [Stepped 0; Stepped 1] |})).
  { rewrite (onAnimationFrame_whole fuel _ _ _ 2); [by vm_compute | by vm_compute | lia |].
    change (Z.to_nat 2) with 2%nat. lia. }
  rewrite Hfirst. cbn [fst snd].
  assert (Hsecond : onAnimationFrame fuel 16.667 100
                      {| rng := random_init; heap := [];
                         physics := {| stepMs := 16.667; startTime := 0; lastTime := 50;
                                       boxes := ∅ |};
                         trace := [Stepped 0; Stepped 1] |}
                   = (Returned (Ok tt),
                      {| rng := @random_init counting_host; heap := [];
                         physics := {| stepMs := 16.667; startTime := 0; lastTime := 100;
                                       boxes := ∅ |};
                         trace := [Stepped 0; Stepped 1; Stepped 2; Stepped 3; Stepped 4] |})).
  { rewrite (onAnimationFrame_whole fuel _ _ _ 3); [by vm_compute | by vm_compute | lia |].
    change (Z.to_nat 3) with 3%nat. lia. }
  rewrite Hsecond. cbn [fst snd].
  split_and!; [done | by vm_compute | done | by vm_compute | by vm_compute | |].
  all: intros Hin; vm_compute in Hin.
  all: repeat (apply elem_of_cons in Hin as [Hin|Hin];
               [apply (f_equal Prim2SF) in Hin; vm_compute in Hin; discriminate Hin |]).
  all: by apply elem_of_nil in Hin.
Qed.

(** The two ticks of C6 with three iterations allowed. *)
Lemma frame_count_example_witness :
  let s0 := clock_state 16.667 0 0 in
  let s1 := (game_loop 3 s0 50%float s0).2 in
  let s2 := (game_loop 3 s0 100%float s1).2 in
  (3 ≤ 3)%nat
  ∧ stepped_frames (new_events s0 s1) = [0; 1]%float
  ∧ stepped_frames (new_events s1 s2) = [2; 3; 4]%float.
Proof.
  cbv zeta. assert (Hfuel : (3 ≤ 3)%nat) by lia.
  destruct (frame_count_example 3 Hfuel) as (_ & Hfirst & _ & Hsecond & _).
  by split_and!.
Defined.

(** The theorem of C1 at a tick that is three frames late: [stepMs = 10],
    [lastTime = 25], sample 57. *)
Lemma tick_runs_due_frames_witness :
  let s := clock_state 10 0 25 in
  let out := onAnimationFrame 3 10 57 s in
  Binary64.fastForwardFrames 10 0 25 57 = Binary64.whole 3
  ∧ out.1 = Returned (Ok tt)
  ∧ stepped_frames (new_events s out.2) = [2; 3; 4]%float
  ∧ lastTime (physics out.2) = 57%float.
Proof.
  cbv zeta.
  destruct (tick_runs_due_frames 3 10 57 (clock_state 10 0 25)) as [_ Hwhole].
  destruct (Hwhole 3%Z) as (Hout & _ & Hlast & Hframes);
    [by vm_compute | lia | change (Z.to_nat 3) with 3%nat; lia |].
  split_and!; [by vm_compute | exact Hout | | exact Hlast].
  etrans; [exact Hframes | by vm_compute].
Defined.

(** C1, the claim as stated fails: with [stepMs = 10], [startTime = 0] and
    [lastTime = 100], the tick at time 50 computes the count
    [floor(50 / 10) - floor(100 / 10) = -5] and executes no step: the number
    of steps is not that difference. *)
Lemma tick_count_counterexample :
  let s := clock_state 10 0 100 in
  let out := onAnimationFrame 0 10 50 s in
  Binary64.fastForwardFrames 10 0 100 50 = (-5)%float
  ∧ out.1 = Returned (Ok tt)
  ∧ length (stepped_frames (new_events s out.2)) = 0%nat
  ∧ Binary64.wholeZ (Z.of_nat (length (stepped_frames (new_events s out.2))))
    ≠ Binary64.fastForwardFrames 10 0 100 50.
Proof.
  cbv zeta. split_and!; [by vm_compute | by vm_compute | by vm_compute |].
  intros Heq. apply (f_equal Prim2SF) in Heq. vm_compute in Heq. discriminate Heq.
Qed.

(** C10, the claim as stated fails: with [stepMs = 1000 / 60],
    [startTime = 0] and [lastTime = 10], the sample 5 is strictly earlier
    than [lastTime] but lies in the same frame: the computed frame count is
    zero, not negative, and [lastTime] keeps its value. *)
Lemma earlier_sample_same_frame_counterexample :
  let s := clock_state (1000 / 60) 0 10 in
  let out := onAnimationFrame 0 (1000 / 60) 5 s in
  PrimFloat.ltb 5 (lastTime (physics s)) = true
  ∧ Binary64.fastForwardFrames (1000 / 60) 0 10 5 = 0%float
  ∧ PrimFloat.ltb (Binary64.fastForwardFrames (1000 / 60) 0 10 5) 0 = false
  ∧ out.1 = Returned (Ok tt)
  ∧ lastTime (physics out.2) = 10%float
  ∧ lastTime (physics out.2) ≠ 5%float.
Proof.
  cbv zeta. split_and!; [by vm_compute | by vm_compute | by vm_compute | by vm_compute
                        | by vm_compute |].
  intros Heq. apply (f_equal Prim2SF) in Heq. vm_compute in Heq. discriminate Heq.
Qed.

(** The rewinding of C10 at a concrete clock: [lastTime = 100], then the
    sample 50, three frames back, then the sample 100 again: the frames 3,
    4 and 5 are stepped once more. *)
Lemma rewound_clock_repeats_frames_witness :
  let s := clock_state (1000 / 60) 0 100 in
  let out1 := onAnimationFrame 3 (1000 / 60) 50 s in
  let out2 := onAnimationFrame 3 (1000 / 60) 100 out1.2 in
  PrimFloat.ltb 50 (lastTime (physics s)) = true
  ∧ Binary64.fastForwardFrames (1000 / 60) 0 100 50 = (- Binary64.whole 3)%float
  ∧ stepped_frames (new_events s out1.2) = []
  ∧ lastTime (physics out1.2) = 50%float
  ∧ out2.1 = Returned (Ok tt)
  ∧ stepped_frames (new_events out1.2 out2.2) = [3; 4; 5]%float.
Proof.
  cbv zeta.
  destruct (rewound_clock_repeats_frames 3 (1000 / 60) 50 (clock_state (1000 / 60) 0 100))
    as [_ Hrewound].
  destruct (Hrewound 3%Z 100%float) as (_ & Hnone & Hlast & Hout2 & Hagain & _);
    [by vm_compute | lia | done | change (Z.to_nat 3) with 3%nat; lia |].
  split_and!.
  - by vm_compute.
  - by vm_compute.
  - exact Hnone.
  - exact Hlast.
  - exact Hout2.
  - etrans; [exact Hagain | by vm_compute].
Defined.

(** *** Collisions *)

(** C2, the claim as stated fails: the boxes at [(0, 0, 1, 1)] and
    [(0.5, 0, 1, 1)] are registered and their rectangles overlap, but a
    call of [step] with a recording callback has recorded no invocation on
    this pair, where the claim asks for exactly one. *)
Lemma overlapping_pair_counterexample :
  let s := two_boxes (full_box "a" 0 0 1 1 solid) (full_box "b" 0.5 0 1 1 solid) in
  let s' := (step (Some recording_callback) s).2 in
  ∃ box1 box2 : Box,
    heap s !! 0%nat = Some box1 ∧ registry_get "a" s = Some box1
    ∧ heap s !! 1%nat = Some box2 ∧ registry_get "b" s = Some box2
    ∧ overlaps box1 box2 = true
    ∧ count_unordered 0 1 (collisions (new_events s s')) ≠ 1%nat.
Proof.
  cbv zeta. do 2 eexists.
  split_and!; [by vm_compute | by vm_compute | by vm_compute | by vm_compute
              | by vm_compute | vm_compute; discriminate].
Qed.

(** The other half of the example holds: the boxes at [(0, 0, 1, 1)] and
    [(2, 0, 1, 1)] do not overlap and are not reported. *)
Lemma separate_pair_not_reported :
  let s := two_boxes (full_box "a" 0 0 1 1 solid) (full_box "b" 2 0 1 1 solid) in
  let s' := (step (Some recording_callback) s).2 in
  ∃ box1 box2 : Box,
    registry_get "a" s = Some box1 ∧ registry_get "b" s = Some box2
    ∧ overlaps box1 box2 = false
    ∧ count_unordered 0 1 (collisions (new_events s s')) = 0%nat.
Proof.
  cbv zeta. do 2 eexists.
  split_and!; [by vm_compute | by vm_compute | by vm_compute | by vm_compute].
Qed.

(** C4, the claim as stated fails: a [sensor] box at [(0, 0, 1, 1)]
    overlaps a [solid] box at [(0.5, 0, 1, 1)], and [step] with a recording
    callback has invoked it on no pair at all. *)
Lemma sensor_pair_counterexample :
  let s := two_boxes (full_box "a" 0 0 1 1 sensor) (full_box "b" 0.5 0 1 1 solid) in
  let s' := (step (Some recording_callback) s).2 in
  ∃ box1 box2 : Box,
    registry_get "a" s = Some box1 ∧ registry_get "b" s = Some box2
    ∧ box_kind box1 = sensor ∧ box_kind box2 = solid
    ∧ overlaps box1 box2 = true
    ∧ collisions (new_events s s') = [].
Proof.
  cbv zeta. do 2 eexists.
  split_and!; [by vm_compute | by vm_compute | by vm_compute | by vm_compute
              | by vm_compute | by vm_compute].
Qed.

(** The positions of C4 at the same two boxes. *)
Lemma step_moves_no_sensor_pair_witness :
  let s := two_boxes (full_box "a" 0 0 1 1 sensor) (full_box "b" 0.5 0 1 1 solid) in
  let s' := (step (Some recording_callback) s).2 in
  (∃ box1', registry_get "a" s' = Some box1' ∧ box_x box1' = 0%Q ∧ box_y box1' = 0%Q)
  ∧ (∃ box2', registry_get "b" s' = Some box2' ∧ box_x box2' = 0.5%Q ∧ box_y box2' = 0%Q).
Proof.
  cbv zeta.
  destruct (step_moves_no_sensor_pair (Some recording_callback)
              (two_boxes (full_box "a" 0 0 1 1 sensor) (full_box "b" 0.5 0 1 1 solid))
              "a" "b"
              {| box_id := "a"; box_x := 0; box_y := 0; box_w := 1; box_h := 1;
                 box_kind := sensor |}
              {| box_id := "b"; box_x := 0.5; box_y := 0; box_w := 1; box_h := 1;
                 box_kind := solid |})
    as (_ & Hbox1 & Hbox2 & _);
    [by vm_compute | by vm_compute | done | done | by vm_compute |].
  by split.
Defined.

(** *** Registry *)

(** C5, the claim as stated fails: [add({ id: 'a', x: 0, y: 0, w: 0, h: -1 })]
    on a new [Physics] does not throw, and stores the box with its zero
    width and negative height. *)
Lemma add_zero_width_counterexample :
  let s : @State counting_host := State_init 0 0 in
  let arg := full_box "a" 0 0 0 (-1) solid in
  is_throw (add arg s).1 = false
  ∧ registry_get "a" (add arg s).2
    = Some {| box_id := "a"; box_x := 0; box_y := 0; box_w := 0; box_h := -1;
              box_kind := solid |}.
Proof. cbv zeta. split; by vm_compute. Qed.

(** The theorem of C5 at a call without an id, [add({ w: 0, h: -1 })], on
    a new session: the box is stored under the text of the first random
    number. *)
Lemma add_stores_any_dimensions_witness :
  let s : @State counting_host := State_init 0 0 in
  let arg := {| opt_id := None; opt_x := None; opt_y := None;
                opt_w := Some 0%Q; opt_h := Some (-1)%Q; opt_kind := None |} in
  (resolve_id arg s).1 = Ok "0.07"
  ∧ (add arg s).1 = Ok 0%nat
  ∧ ∃ box, registry_get "0.07" (add arg s).2 = Some box
           ∧ box_w box = 0%Q ∧ box_h box = (-1)%Q.
Proof.
  cbv zeta.
  destruct (add_stores_any_dimensions
              {| opt_id := None; opt_x := None; opt_y := None;
                 opt_w := Some 0%Q; opt_h := Some (-1)%Q; opt_kind := None |} "0.07"
              (State_init 0 0 : @State counting_host))
    as (Hok & Hbox & _); [by vm_compute | by vm_compute | left; by vm_compute |].
  split_and!; [by vm_compute | exact Hok | exact Hbox].
Defined.



(** ** Further properties of the code *)

Section Scheduler_properties.

Context `{Host}.

(** X1: when the count that the callback computes is above [2^53]
    ([+Infinity] included, which a [stepMs] of zero gives), the callback
    never returns: [lastTime] is set to the sample, and whatever the bound
    on the iterations, the loop is still running when the bound is reached
    and has called [step] in every iteration: the loop counter stops growing
    at [2^53] and stays below the count. *)
Theorem tick_never_returns_above_2_53 (fuel : nat) (ms time : float) (s : State) :
  PrimFloat.ltb (Binary64.whole (2 ^ 53))
    (Binary64.fastForwardFrames ms (startTime (physics s)) (lastTime (physics s)) time)
  = true →
  let out := onAnimationFrame fuel ms time s in
  out.1 = Running
  ∧ length (stepped_frames (new_events s out.2)) = fuel
  ∧ lastTime (physics out.2) = time.
Proof.
  intros Habove out. subst out.
  assert (Htruthy : Binary64.truthy
                      (Binary64.fastForwardFrames ms (startTime (physics s))
                         (lastTime (physics s)) time) = true).
  { apply positive_truthy. rewrite <- whole_0. apply above_whole; [done | lia]. }
  destruct (onAnimationFrame_frame fuel ms time s) as (_ & _ & _ & Hphysics & frames & Htrace).
  rewrite Htruthy in Hphysics.
  pose proof (onAnimationFrame_body fuel ms time s) as Hbody.
  rewrite Htruthy, <- whole_0 in Hbody.
  destruct (frames_loop_running
              (Binary64.frame_index ms (startTime (physics s)) (lastTime (physics s)))
              _ Habove fuel 0%Z (set_physics (set_lastTime time (physics s)) s))
    as [Hout Hlen]; [lia |].
  rewrite <- Hbody in Hout, Hlen. cbn [trace set_physics] in Hlen.
  split_and!; [done | | by rewrite Hphysics].
  unfold new_events. rewrite Htrace, drop_app_length, stepped_frames_Stepped.
  rewrite Htrace, length_app, length_fmap in Hlen. lia.
Qed.

Lemma default_last_cons {A : Type} (a t : A) (l : list A) :
  default a (last (t :: l)) = default t (last l).
Proof. rewrite last_cons. by destruct (last l). Qed.

Lemma sorted_last (a : Z) (l : list Z) :
  Sorted Z.le (a :: l) → (a ≤ default a (last l))%Z.
Proof.
  revert a. induction l as [|b l IH]; intros a Hsorted; [done |].
  apply Sorted_inv in Hsorted as [Hlater Hhead]. apply HdRel_inv in Hhead.
  rewrite default_last_cons. etrans; [exact Hhead | by apply IH].
Qed.

Lemma animation_frames_whole (fuel : nat) (ms : float) (times : list float) :
  ∀ (frames : list Z) (first : Z) (s : State),
    Binary64.frame_index ms (startTime (physics s)) (lastTime (physics s))
    = Binary64.wholeZ first →
    Forall2 (λ time frame,
               Binary64.frame_index ms (startTime (physics s)) time = Binary64.wholeZ frame)
      times frames →
    Sorted Z.le (first :: frames) →
    Forall (λ frame, (Z.abs frame < 2 ^ 53)%Z) (first :: frames) →
    (default first (last frames) - first ≤ 2 ^ 53)%Z →
    (Z.to_nat (default first (last frames) - first) ≤ fuel)%nat →
    (animation_frames fuel ms times s).1 = Returned (Ok tt)
    ∧ startTime (physics (animation_frames fuel ms times s).2) = startTime (physics s)
    ∧ Binary64.frame_index ms (startTime (physics s))
        (lastTime (physics (animation_frames fuel ms times s).2))
      = Binary64.wholeZ (default first (last frames))
    ∧ trace (animation_frames fuel ms times s).2
      = trace s ++ (Stepped <$> (Binary64.wholeZ
                                 <$> seqZ first (default first (last frames) - first))).
Proof.
  induction times as [|time later IH]; intros frames first s Hfirst Hframes Hsorted Hbound;
    destruct frames as [|frame frames]; try by inversion Hframes.
  { intros _ _. cbn. rewrite Z.sub_diag. cbn. by rewrite app_nil_r. }
  apply Forall2_cons in Hframes as [Hframe Hframes].
  rewrite default_last_cons. intros Hcount Hfuel.
  apply Sorted_inv in Hsorted as [Hlater Hhead]. apply HdRel_inv in Hhead.
  pose proof (sorted_last _ _ Hlater) as Hfinal.
  apply Forall_cons in Hbound as [Hbfirst Hblater].
  pose proof Hblater as Hblater'. apply Forall_cons in Hblater' as [Hbframe _].
  assert (Hcnt : Binary64.fastForwardFrames ms (startTime (physics s))
                   (lastTime (physics s)) time = Binary64.whole (frame - first)).
  { unfold Binary64.fastForwardFrames. rewrite Hframe, Hfirst.
    rewrite wholeZ_sub by lia. apply wholeZ_nonneg. lia. }
  cbn [animation_frames].
  destruct (Z.eq_dec frame first) as [->|Hne].
  - (* the sample lies in the frame of [lastTime]: no step, [lastTime] is kept *)
    rewrite Z.sub_diag in Hcnt.
    rewrite onAnimationFrame_idle by (by rewrite Hcnt).
    rewrite Hcnt. change (Binary64.truthy (Binary64.whole 0)) with false.
    by apply IH.
  - rewrite (onAnimationFrame_whole fuel ms time s (frame - first) Hcnt) by lia.
    set (s1 := {| rng := rng s; heap := heap s; physics := set_lastTime time (physics s);
                  trace := _ |}).
    assert (Htrace1 : trace s1
              = trace s ++ (Stepped <$> (Binary64.wholeZ <$> seqZ first (frame - first)))).
    { subst s1. cbn [trace]. f_equal. f_equal. rewrite Hfirst.
      replace (seqZ first (frame - first)) with (Z.add first <$> seqZ 0 (frame - first))
        by (rewrite fmap_add_seqZ; f_equal; lia).
      rewrite <- list_fmap_compose. apply Forall_fmap_ext, Forall_forall.
      intros f Hf. apply elem_of_seqZ in Hf. unfold compose.
      rewrite <- wholeZ_nonneg by lia. apply wholeZ_add; lia. }
    destruct (IH frames frame s1) as (Hout & Hstart & Hlast & Htrace);
      [done | done | done | done | lia | lia |].
    change (startTime (physics s1)) with (startTime (physics s)) in Hstart, Hlast.
    split_and!; [done | done | done |].
    rewrite Htrace, Htrace1, <- app_assoc, <- !fmap_app. do 3 f_equal.
    replace (default frame (last frames) - first)%Z
      with ((frame - first) + (default frame (last frames) - frame))%Z by lia.
    rewrite seqZ_app by lia. do 2 f_equal. lia.
Qed.

(** X2: let the frame indices that the callbacks of a run compute be whole
    numbers below [2^53] in magnitude that never go back (each at or after
    the one before, the first at or after the frame of [lastTime]), at most
    [2^53] frames in all.  Then every callback returns, and between them
    the callbacks step exactly the frames from the frame of the first
    [lastTime] up to the frame of the last sample, each once and in
    increasing order, however the samples are spaced. *)
Theorem monotone_ticks_step_each_frame_once
    (fuel : nat) (ms : float) (times : list float) (frames : list Z) (first : Z) (s : State) :
  Binary64.frame_index ms (startTime (physics s)) (lastTime (physics s))
  = Binary64.wholeZ first →
  Forall2 (λ time frame,
             Binary64.frame_index ms (startTime (physics s)) time = Binary64.wholeZ frame)
    times frames →
  Sorted Z.le (first :: frames) →
  Forall (λ frame, (Z.abs frame < 2 ^ 53)%Z) (first :: frames) →
  let final := default first (last frames) in
  (final - first ≤ 2 ^ 53)%Z →
  (Z.to_nat (final - first) ≤ fuel)%nat →
  let out := animation_frames fuel ms times s in
  out.1 = Returned (Ok tt)
  ∧ stepped_frames (new_events s out.2) = Binary64.wholeZ <$> seqZ first (final - first)
  ∧ Binary64.frame_index ms (startTime (physics s)) (lastTime (physics out.2))
    = Binary64.wholeZ final.
Proof.
  intros Hfirst Hframes Hsorted Hbound final Hcount Hfuel out. subst final out.
  destruct (animation_frames_whole fuel ms times frames first s)
    as (Hout & _ & Hlast & Htrace); try done.
  split_and!; [done | | done].
  unfold new_events. by rewrite Htrace, drop_app_length, stepped_frames_Stepped.
Qed.

(** X3: a run of ticks, at any sample times and whether or not its
    callbacks return, never touches the registry, the boxes, the random
    source, the step duration or [startTime]: of the clock it changes
    [lastTime] only. *)
Theorem ticks_change_the_clock_only
    (fuel : nat) (ms : float) (times : list float) (s : State) :
  let s' := (animation_frames fuel ms times s).2 in
  rng s' = rng s
  ∧ heap s' = heap s
  ∧ boxes (physics s') = boxes (physics s)
  ∧ stepMs (physics s') = stepMs (physics s)
  ∧ startTime (physics s') = startTime (physics s).
Proof.
  cbv zeta. revert s. induction times as [|time later IH]; intros s; [done |].
  cbn [animation_frames].
  destruct (onAnimationFrame_frame fuel ms time s) as (_ & Hrng & Hheap & Hphysics & _).
  assert (Hclock : boxes (physics (onAnimationFrame fuel ms time s).2) = boxes (physics s)
                   ∧ stepMs (physics (onAnimationFrame fuel ms time s).2) = stepMs (physics s)
                   ∧ startTime (physics (onAnimationFrame fuel ms time s).2)
                     = startTime (physics s)).
  { rewrite Hphysics. by destruct (Binary64.truthy _). }
  destruct Hclock as (Hboxes & Hms & Hstart).
  destruct (onAnimationFrame fuel ms time s) as [[r|] s1]; cbn [fst snd] in *.
  - destruct (IH s1) as (? & ? & ? & ? & ?). split_and!; congruence.
  - done.
Qed.

End Scheduler_properties.

Section Registry_properties.

Context `{Host}.

Lemma js_in_false {V : Type} (id : string) (o : gmap string V) :
  js_in id o = false ↔ o !! id = None ∧ id ∉ Object_prototype.
Proof.
  unfold js_in. rewrite orb_false_iff, !bool_decide_eq_false.
  by rewrite <- eq_None_not_Some.
Qed.

(** [add] either throws while resolving the id, or throws on the assertion,
    or stores the box. *)
Lemma add_cases (arg : PartialBox) (s : State) :
  (∃ message, add arg s = (Throw message, (resolve_id arg s).2)
              ∧ ((resolve_id arg s).1 = Throw message
                 ∨ ∃ id, (resolve_id arg s).1 = Ok id
                         ∧ js_in id (boxes (physics s)) = true
                         ∧ message = "Assertion failed: Box@" +:+ id +:+ " already exists"))
  ∨ (∃ id, (resolve_id arg s).1 = Ok id
           ∧ js_in id (boxes (physics s)) = false
           ∧ add arg s
             = (Ok (length (heap s)),
                {| rng := rng (resolve_id arg s).2;
                   heap := heap s ++ [ {| box_id := id;
                                          box_x := nullish (opt_x arg) 0%Q;
                                          box_y := nullish (opt_y arg) 0%Q;
                                          box_w := nullish (opt_w arg) 1%Q;
                                          box_h := nullish (opt_h arg) 1%Q;
                                          box_kind := nullish (opt_kind arg) solid |} ];
                   physics := set_boxes (<[id := length (heap s)]> (boxes (physics s)))
                                        (physics s);
                   trace := trace s |})).
Proof.
  destruct (resolve_id arg s) as [[id|message] s0] eqn:Hresolve.
  - destruct (js_in id (boxes (physics s))) eqn:Hin.
    + left. eexists. split; [| right; eauto].
      pose proof (add_taken arg id s) as Htaken. rewrite Hresolve in Htaken.
      by apply Htaken.
    + right. exists id. split_and!; [done | done |].
      pose proof (add_free arg id s) as Hfree. rewrite Hresolve in Hfree.
      by apply Hfree.
  - left. exists message. split; [| by left].
    unfold add, bind. by rewrite Hresolve.
Qed.

Lemma add_keeps_registry_wf (arg : PartialBox) (s : State) :
  registry_wf s → registry_wf (add arg s).2.
Proof.
  intros (Hreg & Hheap & Hnames).
  pose proof (resolve_id_frame arg s) as (Hh & Hp & _).
  destruct (add_cases arg s) as [(message & -> & _) | (id & _ & Hfree & ->)].
  - cbn. unfold registry_wf. by rewrite Hh, Hp.
  - apply js_in_false in Hfree as [Hnone Hname]. unfold registry_wf. cbn.
    split_and!.
    + intros id' ref. destruct (decide (id = id')) as [<-|Hne].
      * rewrite lookup_insert_eq. intros [= <-].
        eexists. by rewrite list_lookup_middle.
      * rewrite lookup_insert_ne by done. intros Hid'.
        destruct (Hreg _ _ Hid') as (box & Hbox & Hbid).
        exists box. split; [| done]. rewrite lookup_app_l; [done |].
        by eapply lookup_lt_Some.
    + intros ref box Hbox. apply lookup_app_Some in Hbox as [Hold | [Hge Hnew]].
      * pose proof (Hheap _ _ Hold) as Hid'.
        rewrite lookup_insert_ne; [done |]. intros ->. congruence.
      * apply list_lookup_singleton_Some in Hnew as [Hzero <-]. cbn.
        rewrite lookup_insert_eq. f_equal. lia.
    + intros id'. destruct (decide (id = id')) as [<-|Hne]; [done |].
      rewrite lookup_insert_ne by done. apply Hnames.
Qed.

Lemma add_keeps_registry_size (arg : PartialBox) (s : State) :
  size (boxes (physics s)) = length (heap s) →
  size (boxes (physics (add arg s).2)) = length (heap (add arg s).2).
Proof.
  intros Hsize. pose proof (resolve_id_frame arg s) as (Hh & Hp & _).
  destruct (add_cases arg s) as [(message & -> & _) | (id & _ & Hfree & ->)].
  - cbn. by rewrite Hh, Hp.
  - apply js_in_false in Hfree as [Hnone Hname]. cbn.
    rewrite map_size_insert_None by done. rewrite length_app. cbn. lia.
Qed.

Lemma run_call_keeps_registry_wf (fuel : nat) (call : Call) (s : State) :
  registry_wf s ∧ size (boxes (physics s)) = length (heap s) →
  registry_wf (run_call fuel s call).2
  ∧ size (boxes (physics (run_call fuel s call).2)) = length (heap (run_call fuel s call).2).
Proof.
  intros [Hwf Hsize]. destruct call as [arg|onCollision|ms time]; cbn [run_call snd].
  - split; [by apply add_keeps_registry_wf | by apply add_keeps_registry_size].
  - by rewrite step_spec.
  - destruct (onAnimationFrame_frame fuel ms time s) as (_ & _ & Hheap & Hphysics & _).
    unfold registry_wf. rewrite Hheap, Hphysics. by destruct (Binary64.truthy _).
Qed.

Lemma registry_wf_init (now_start now_last : float) :
  registry_wf (State_init now_start now_last).
Proof.
  unfold registry_wf. cbn. split_and!.
  - intros id ref. by rewrite lookup_empty.
  - intros ref box. by rewrite lookup_nil.
  - intros id. rewrite lookup_empty. by intros [? ?].
Qed.

Lemma run_calls_keep_registry_wf (fuel : nat) (calls : list Call) (s : State) :
  registry_wf s ∧ size (boxes (physics s)) = length (heap s) →
  registry_wf (run_calls fuel calls s)
  ∧ size (boxes (physics (run_calls fuel calls s))) = length (heap (run_calls fuel calls s)).
Proof.
  revert s. induction calls as [|call calls IH]; intros s Hwf; [done |].
  cbn [run_calls]. pose proof (run_call_keeps_registry_wf fuel call s Hwf) as Hstep.
  destruct (run_call fuel s call) as [[] s']; [by apply IH | done].
Qed.

(** X4: whatever calls of [add], [step] and the animation callback a
    session has seen since its [Physics] was created, whether or not they
    threw, and also inside a callback that does not return, every
    registered id leads to a box object that carries
    this very id, every box object is registered under its id (so no two
    ids share a box and no box is lost), no id is a property name of
    [Object.prototype], and the registry has exactly as many entries as
    boxes were stored. *)
Theorem registry_stays_consistent
    (fuel : nat) (calls : list Call) (now_start now_last : float) :
  let s := run_calls fuel calls (State_init now_start now_last) in
  registry_wf s
  ∧ size (boxes (physics s)) = length (heap s)
  ∧ (∀ id1 id2 ref, boxes (physics s) !! id1 = Some ref →
       boxes (physics s) !! id2 = Some ref → id1 = id2).
Proof.
  intros s.
  destruct (run_calls_keep_registry_wf fuel calls (State_init now_start now_last))
    as [Hwf Hsize]; [split; [apply registry_wf_init | cbn; by rewrite map_size_empty] |].
  fold s in Hwf, Hsize. split_and!; [done | done |].
  destruct Hwf as (Hreg & _ & _). intros id1 id2 ref Hid1 Hid2.
  destruct (Hreg _ _ Hid1) as (box1 & Hbox1 & <-).
  destruct (Hreg _ _ Hid2) as (box2 & Hbox2 & <-). congruence.
Qed.

(** X5: a call of [add] that throws leaves no trace of the box: the box
    store, the registry, the clock and the observed events are what they
    were (only the random source may have been drawn from, for an omitted
    id). *)
Theorem failed_add_stores_nothing (arg : PartialBox) (s : State) :
  is_throw (add arg s).1 = true →
  heap (add arg s).2 = heap s
  ∧ physics (add arg s).2 = physics s
  ∧ trace (add arg s).2 = trace s
  ∧ (∀ id, opt_id arg = Some id → (add arg s).2 = s).
Proof.
  intros Hthrow. pose proof (resolve_id_frame arg s) as (Hh & Hp & Ht).
  destruct (add_cases arg s) as [(message & Hadd & _) | (id & _ & _ & Hadd)];
    rewrite Hadd in Hthrow |- *; [| done].
  cbn. split_and!; [done | done | done |].
  intros id Hid. by rewrite (resolve_id_given arg id s Hid).
Qed.

(** X6: a call of [add] that returns has stored exactly one new box, at the
    end of the box store, under an id that was not registered before, and
    returns its reference: every entry of the registry and every box that
    was there is as it was, and so are the clock and the observed events. *)
Theorem successful_add_adds_one_box (arg : PartialBox) (s : State) (ref : nat) :
  (add arg s).1 = Ok ref →
  let s' := (add arg s).2 in
  ∃ box,
    ref = length (heap s)
    ∧ heap s' = heap s ++ [box]
    ∧ boxes (physics s) !! box_id box = None
    ∧ boxes (physics s') = <[box_id box := ref]> (boxes (physics s))
    ∧ (∀ id ref', boxes (physics s) !! id = Some ref' →
         boxes (physics s') !! id = Some ref')
    ∧ (∀ ref' box', heap s !! ref' = Some box' → heap s' !! ref' = Some box')
    ∧ stepMs (physics s') = stepMs (physics s)
    ∧ startTime (physics s') = startTime (physics s)
    ∧ lastTime (physics s') = lastTime (physics s)
    ∧ trace s' = trace s.
Proof.
  intros Hok s'. subst s'.
  destruct (add_cases arg s) as [(message & Hadd & _) | (id & _ & Hfree & Hadd)];
    rewrite Hadd in Hok |- *; [done |].
  injection Hok as <-. apply js_in_false in Hfree as [Hnone _].
  eexists. cbn. split_and!; try done.
  - intros id' ref' Hid'. rewrite lookup_insert_ne; [done |]. intros ->. congruence.
  - intros ref' box' Hbox'. rewrite lookup_app_l; [done |]. by eapply lookup_lt_Some.
Qed.

(** X7: for a given id, [add] returns exactly when the id is neither
    registered nor a property name of [Object.prototype]; otherwise it
    throws "Assertion failed: Box@<id> already exists". *)
Theorem add_returns_iff_id_free (arg : PartialBox) (id : string) (s : State) :
  opt_id arg = Some id →
  ((add arg s).1 = Ok (length (heap s))
   ↔ boxes (physics s) !! id = None ∧ id ∉ Object_prototype)
  ∧ ((add arg s).1 = Throw ("Assertion failed: Box@" +:+ id +:+ " already exists")
     ↔ is_Some (boxes (physics s) !! id) ∨ id ∈ Object_prototype).
Proof.
  intros Hid. pose proof (resolve_id_given arg id s Hid) as Hresolve.
  destruct (js_in id (boxes (physics s))) eqn:Hin.
  - destruct (add_taken arg id s) as (Hadd & _); [by rewrite Hresolve | done |].
    rewrite Hadd. cbn.
    assert (Htaken : is_Some (boxes (physics s) !! id) ∨ id ∈ Object_prototype).
    { unfold js_in in Hin. apply orb_true_iff in Hin as [Hown|Hinh].
      - left. by apply bool_decide_eq_true in Hown.
      - right. by apply bool_decide_eq_true in Hinh. }
    split; split; try done.
    intros [Hnone Hname]. destruct Htaken as [[? ?]|?]; [congruence | done].
  - rewrite (add_free arg id s); [| by rewrite Hresolve | done]. cbn.
    apply js_in_false in Hin as [Hnone Hname].
    split; split; try done.
    intros [[? ?]|?]; [congruence | done].
Qed.

End Registry_properties.

Section Random_properties.

Context `{Host}.

Lemma calls_with_cons (seed c : option string) (calls : list (option string)) :
  calls_with seed (c :: calls)
  = ((if decide (c = seed) then 1 else 0) + calls_with seed calls)%nat.
Proof.
  unfold calls_with. rewrite filter_cons. by destruct (decide (c = seed)).
Qed.

Lemma values_for_cons (seed c : option string) (v : Q)
    (calls : list (option string)) (values : list Q) :
  values_for seed (c :: calls) (v :: values)
  = if decide (c = seed) then v :: values_for seed calls values
    else values_for seed calls values.
Proof.
  unfold values_for. cbn [zip zip_with]. rewrite filter_cons. cbn [fst].
  by destruct (decide (c = seed)).
Qed.

Lemma random_values_cons (c : option string) (later : list (option string))
    (s : RandomState) (v : Q) (vs : list Q) :
  (random c s).1 = Ok v →
  (random_values later (random c s).2).1 = Ok vs →
  random_values (c :: later) s
  = (Ok (v :: vs), (random_values later (random c s).2).2).
Proof.
  intros Hv Hvs. cbn [random_values]. unfold bind, ret.
  destruct (random c s) as [r s1]. cbn [fst snd] in *. subst r.
  destruct (random_values later s1) as [r2 s2]. cbn [fst snd] in *. by subst r2.
Qed.

Lemma random_values_from (prior calls : list (option string)) (s : RandomState) :
  cache_inv prior s →
  ∃ values,
    (random_values calls s).1 = Ok values
    ∧ length values = length calls
    ∧ cache_inv (prior ++ calls) (random_values calls s).2
    ∧ ∀ seed, values_for seed calls values
              = generator_stream seed (calls_with seed prior) (calls_with seed calls).
Proof.
  revert prior s. induction calls as [|c later IH]; intros prior s Hinv.
  - exists []. rewrite app_nil_r. by split_and!.
  - destruct (random_step prior c s Hinv) as (Hval & Hinv1 & _).
    destruct (IH (prior ++ [c]) _ Hinv1) as (vs & Hvs & Hlen & Hinv2 & Hstream).
    rewrite (random_values_cons c later s _ vs Hval Hvs).
    eexists. cbn [fst snd]. rewrite <- app_assoc in Hinv2.
    split_and!; [done | cbn [length]; by rewrite Hlen | done |].
    intros seed. specialize (Hstream seed).
    rewrite calls_with_snoc in Hstream. rewrite calls_with_cons, values_for_cons.
    destruct (decide (c = seed)) as [->|Hne].
    + rewrite Hstream. unfold generator_stream. cbn [Nat.add seq fmap list_fmap].
      by rewrite Nat.add_1_r.
    + rewrite Hstream. by rewrite Nat.add_0_r.
Qed.

(** X8: in any run of calls of [random] from the start of the program, no
    call throws, and the numbers returned to the calls with one seed are,
    in order, the first numbers of the one generator built from that seed,
    however the calls with other seeds (or without a seed) are interleaved
    with them. *)
Theorem random_streams_are_independent (calls : list (option string)) :
  ∃ values,
    (random_values calls random_init).1 = Ok values
    ∧ length values = length calls
    ∧ ∀ seed, values_for seed calls values
              = generator_stream seed 0 (calls_with seed calls).
Proof.
  destruct (random_values_from [] calls random_init cache_inv_init)
    as (values & Hvalues & Hlen & _ & Hstream).
  exists values. split_and!; [done | done |].
  intros seed. by rewrite Hstream.
Qed.

End Random_properties.

(** *** The camera *)

(** X9: for a window of positive height and a width that is not negative,
    the camera square scaled by [cameraScale] fits the window in both
    directions and fills one of them: its side is the smaller of the
    window's width and height. *)
Theorem camera_fits_window (windowW windowH : Q) :
  (0 <= windowW)%Q →
  (0 < windowH)%Q →
  let side := (cameraScale windowW windowH * cameraSidePx)%Q in
  (side <= windowW)%Q
  ∧ (side <= windowH)%Q
  ∧ (side == windowW ∨ side == windowH)%Q.
Proof.
  intros Hw Hh side. subst side. unfold cameraScale.
  assert (Hside : ¬ (cameraSidePx == 0)%Q) by (vm_compute; discriminate).
  assert (Hratio : (cameraSidePx / cameraSidePx == 1)%Q) by (by vm_compute).
  assert (Hnz : ¬ (windowH == 0)%Q).
  { intros Hz. rewrite Hz in Hh. by apply Qlt_irrefl in Hh. }
  pose proof (Qmult_div_r windowW windowH Hnz) as Hx.
  set (x := (windowW / windowH)%Q) in *.
  unfold Qltb. destruct (Qle_bool x (cameraSidePx / cameraSidePx)) eqn:Hle; cbn [negb].
  - apply Qle_bool_iff in Hle. rewrite Hratio in Hle.
    assert (Hscaled : (windowW / cameraSidePx * cameraSidePx == windowW)%Q).
    { rewrite Qmult_comm. by apply Qmult_div_r. }
    rewrite Hscaled. split_and!; [apply Qle_refl | nra | left; reflexivity].
  - assert (Hgt : (1 < x)%Q).
    { apply Qnot_le_lt. intros Hc. rewrite <- Hratio in Hc.
      apply Qle_bool_iff in Hc. congruence. }
    assert (Hscaled : (windowH / cameraSidePx * cameraSidePx == windowH)%Q).
    { rewrite Qmult_comm. by apply Qmult_div_r. }
    rewrite Hscaled. split_and!; [nra | apply Qle_refl | right; reflexivity].
Qed.

(** *** The page *)

Section Page_properties.

Context `{Host}.

Variable for_in : State → list string.

(** The styling loop never touches the session or the refs, and whatever
    it returns, a [div] either keeps its style or has got the style of a
    registered box, one of the enumerated ones, whose ref it is attached
    to. *)
Lemma animate_box_divs_writes (ids : list string) (page : Page) :
  let page' := (animate_box_divs ids page).2 in
  session page' = session page
  ∧ boxDivsRef page' = boxDivsRef page
  ∧ ∀ div, divs page' !! div = divs page !! div
           ∨ ∃ id box, id ∈ ids
                       ∧ registry_get id (session page) = Some box
                       ∧ boxDivsRef page !! box_id box = Some (Some div)
                       ∧ divs page' !! div = Some (box_style box).
Proof.
  revert page. induction ids as [|id rest IH]; intros page; cbn.
  { split_and!; [done | done |]. intros div. by left. }
  destruct (registry_get id (session page)) as [box|] eqn:Hbox; cbn;
    [| split_and!; [done | done | by left]].
  unfold js_get.
  destruct (boxDivsRef page !! box_id box) as [[div0|]|] eqn:Href.
  - specialize (IH (set_divs (<[div0 := box_style box]> (divs page)) page)).
    cbn in IH. destruct IH as (Hs & Hr & Hd). split_and!; [done | done |].
    intros div. destruct (Hd div) as [Hsame | (id' & box' & Hin & Hbox' & Href' & Hstyle)].
    + destruct (decide (div0 = div)) as [<-|Hne].
      * right. exists id, box. rewrite Hsame, lookup_insert_eq.
        split_and!; [by left | done | done | done].
      * left. by rewrite Hsame, lookup_insert_ne.
    + right. exists id', box'. split_and!; [by right | done | done | done].
  - destruct (IH page) as (Hs & Hr & Hd). split_and!; [done | done |].
    intros div. destruct (Hd div) as [Hsame | (id' & box' & Hin & Hrest)]; [by left |].
    right. exists id', box'. split; [by right | done].
  - destruct (bool_decide (box_id box ∈ Object_prototype)); cbn;
      [| split_and!; [done | done | by left]].
    destruct (IH page) as (Hs & Hr & Hd). split_and!; [done | done |].
    intros div. destruct (Hd div) as [Hsame | (id' & box' & Hin & Hrest)]; [by left |].
    right. exists id', box'. split; [by right | done].
Qed.

(** With a box for every id and a ref for every box, the styling loop
    returns. *)
Lemma animate_box_divs_returns (ids : list string) (page : Page) :
  (∀ id, id ∈ ids →
     ∃ box, registry_get id (session page) = Some box
            ∧ is_Some (boxDivsRef page !! box_id box)) →
  (animate_box_divs ids page).1 = Ok tt.
Proof.
  revert page. induction ids as [|id rest IH]; intros page Hcover; [done |]. cbn.
  destruct (Hcover id) as (box & -> & [ref Href]); [by left |].
  unfold js_get. rewrite Href.
  destruct ref as [div|]; apply IH; intros id' Hin; apply Hcover; by right.
Qed.

(** When the styling loop returns, every enumerated box whose ref is
    attached shows its style, provided no [div] is attached to the refs of
    two boxes. *)
Lemma animate_box_divs_styles (ids : list string) (page : Page) :
  (animate_box_divs ids page).1 = Ok tt →
  (∀ id1 id2 box1 box2 div,
     registry_get id1 (session page) = Some box1 →
     registry_get id2 (session page) = Some box2 →
     boxDivsRef page !! box_id box1 = Some (Some div) →
     boxDivsRef page !! box_id box2 = Some (Some div) → box1 = box2) →
  ∀ id box div,
    id ∈ ids →
    registry_get id (session page) = Some box →
    boxDivsRef page !! box_id box = Some (Some div) →
    divs (animate_box_divs ids page).2 !! div = Some (box_style box).
Proof.
  revert page. induction ids as [|id0 rest IH]; intros page Hok Hinj id box div Hin Hbox Href.
  { by apply elem_of_nil in Hin. }
  cbn in Hok |- *.
  destruct (registry_get id0 (session page)) as [box0|] eqn:Hbox0; [| done].
  unfold js_get in *.
  destruct (boxDivsRef page !! box_id box0) as [[div0|]|] eqn:Href0.
  - set (page1 := set_divs (<[div0 := box_style box0]> (divs page)) page) in *.
    apply elem_of_cons in Hin as [-> | Hin].
    + assert (box0 = box) as -> by congruence.
      assert (div0 = div) as -> by congruence.
      destruct (animate_box_divs_writes rest page1) as (_ & _ & Hd).
      destruct (Hd div) as [Hsame | (id' & box' & _ & Hbox' & Href' & Hstyle)].
      * rewrite Hsame. subst page1. cbn. by rewrite lookup_insert_eq.
      * rewrite Hstyle. f_equal. f_equal. by eapply (Hinj id' id0).
    + exact (IH page1 Hok Hinj id box div Hin Hbox Href).
  - apply elem_of_cons in Hin as [-> | Hin]; [congruence |].
    exact (IH page Hok Hinj id box div Hin Hbox Href).
  - destruct (bool_decide (box_id box0 ∈ Object_prototype)); [| done].
    apply elem_of_cons in Hin as [-> | Hin]; [congruence |].
    exact (IH page Hok Hinj id box div Hin Hbox Href).
Qed.


Hypothesis for_in_enumerates : enumerates for_in.

(** The loop is over when the counter is not below the count. *)
Lemma frames_loop_page_skip
    (fuel : nat) (pastFrames fastForwardFrames f : float) (page : Page) :
  PrimFloat.ltb f fastForwardFrames = false →
  frames_loop_page for_in fuel pastFrames fastForwardFrames f page = (Returned (Ok tt), page).
Proof. intros Hge. destruct fuel; cbn; by rewrite Hge. Qed.

(** One iteration. *)
Lemma frames_loop_page_step
    (fuel : nat) (pastFrames fastForwardFrames f : float) (page : Page) :
  PrimFloat.ltb f fastForwardFrames = true →
  frames_loop_page for_in (S fuel) pastFrames fastForwardFrames f page
  = let page1 := set_session (set_trace (trace (session page)
                                         ++ [Stepped (PrimFloat.add pastFrames f)])
                                (session page)) page in
    match animate_box_divs (for_in (session page1)) page1 with
    | (Ok _, page2) =>
        frames_loop_page for_in fuel pastFrames fastForwardFrames (PrimFloat.add f 1) page2
    | (Throw message, page2) => (Returned (Throw message), page2)
    end.
Proof. intros Hlt. cbn. by rewrite Hlt. Qed.

Lemma page_wf_same (page page' : Page) :
  heap (session page') = heap (session page) →
  boxes (physics (session page')) = boxes (physics (session page)) →
  boxDivsRef page' = boxDivsRef page →
  page_wf page → page_wf page'.
Proof.
  intros Hh Hb Hr. unfold page_wf, registry_wf. by rewrite Hh, Hb, Hr.
Qed.

Lemma registry_get_same (id : string) (s s' : State) :
  heap s' = heap s → boxes (physics s') = boxes (physics s) →
  registry_get id s' = registry_get id s.
Proof. intros Hh Hb. unfold registry_get. by rewrite Hh, Hb. Qed.

(** On a page where every registered box has its ref, the styling loop
    over the enumerated ids returns. *)
Lemma animate_box_divs_page_wf (page : Page) :
  page_wf page →
  (animate_box_divs (for_in (session page)) page).1 = Ok tt.
Proof using All.
  intros [(Hreg & _ & _) Hrefs]. apply animate_box_divs_returns.
  intros id Hin. apply for_in_enumerates in Hin as Hsome.
  destruct Hsome as [ref Href]. destruct (Hreg _ _ Href) as (box & Hbox & <-).
  exists box. split; [| apply Hrefs; eauto].
  unfold registry_get. rewrite Href. done.
Qed.

(** On a page where every registered box has its ref, the loop with the
    styling does to the session what the loop without it does, and is over
    when that is; it leaves the refs alone, writes no style when it runs no
    iteration, and leaves every attached [div] styled when it has run
    one. *)
Lemma frames_loop_page_spec (fuel : nat) (pastFrames fastForwardFrames : float) :
  ∀ (f : float) (page : Page),
    page_wf page →
    let out := frames_loop_page for_in fuel pastFrames fastForwardFrames f page in
    let plain := frames_loop fuel pastFrames fastForwardFrames f (session page) in
    out.1 = plain.1
    ∧ session out.2 = plain.2
    ∧ boxDivsRef out.2 = boxDivsRef page
    ∧ (PrimFloat.ltb f fastForwardFrames = false ∨ fuel = 0%nat → divs out.2 = divs page)
    ∧ (PrimFloat.ltb f fastForwardFrames = true → (0 < fuel)%nat →
       attached_once page → styled page (divs out.2)).
Proof using All.
  induction fuel as [|fuel IH]; intros f page Hwf; cbv zeta.
  { cbn [frames_loop_page frames_loop].
    destruct (PrimFloat.ltb f fastForwardFrames); cbn; split_and!; try done; lia. }
  destruct (PrimFloat.ltb f fastForwardFrames) eqn:Hlt.
  2: { rewrite frames_loop_page_skip, frames_loop_skip by done. cbn.
       by split_and!. }
  rewrite frames_loop_page_step, frames_loop_step by done. cbv zeta.
  set (s1 := set_trace (trace (session page) ++ [Stepped (PrimFloat.add pastFrames f)])
               (session page)).
  set (page1 := set_session s1 page).
  assert (Hwf1 : page_wf page1) by (by apply (page_wf_same page)).
  pose proof (animate_box_divs_page_wf page1 Hwf1) as Hok.
  pose proof (animate_box_divs_writes (for_in (session page1)) page1) as (Hs2 & Hr2 & _).
  cbv zeta in Hs2, Hr2.
  pose proof (animate_box_divs_styles (for_in (session page1)) page1 Hok) as Hstyles.
  destruct (animate_box_divs (for_in (session page1)) page1) as [r page2].
  cbn [fst snd] in *. subst r.
  assert (Hwf2 : page_wf page2).
  { apply (page_wf_same page1); [by rewrite Hs2 | by rewrite Hs2 | done | done]. }
  destruct (IH (PrimFloat.add f 1) page2 Hwf2) as (Hout & Hsession & Hrefs & Hkeep & Hstyled).
  rewrite Hs2, Hr2 in *. change (session page1) with s1 in *.
  split_and!; [done | done | done | by intros [|] |].
  intros _ _ Honce.
  assert (Honce1 : attached_once page1) by exact Honce.
  assert (Honce2 : attached_once page2).
  { unfold attached_once. rewrite Hs2, Hr2. exact Honce1. }
  assert (Hlast : divs page2 = divs page2 → styled page (divs page2)).
  { intros _ id box div Hbox Href.
    apply (Hstyles Honce1 id box div); [| done | done].
    apply for_in_enumerates. unfold registry_get in Hbox.
    subst page1 s1. cbn. destruct (boxes (physics (session page)) !! id); [eauto | done]. }
  destruct (PrimFloat.ltb (PrimFloat.add f 1) fastForwardFrames) eqn:Hmore;
    [destruct fuel as [|fuel'] |].
  - rewrite Hkeep by auto. by apply Hlast.
  - intros id box div Hbox Href.
    apply (Hstyled eq_refl ltac:(lia) Honce2 id box div); [by rewrite Hs2 | by rewrite Hr2].
  - rewrite Hkeep by auto. by apply Hlast.
Qed.

(** The callback up to its loop: the clock is set as by the callback
    without the styling. *)
Lemma onAnimationFrame_page_body (fuel : nat) (ms time : float) (page : Page) :
  let count :=
    Binary64.fastForwardFrames ms (startTime (physics (session page)))
      (lastTime (physics (session page))) time in
  onAnimationFrame_page for_in fuel ms time page
  = frames_loop_page for_in fuel
      (Binary64.frame_index ms (startTime (physics (session page)))
         (lastTime (physics (session page))))
      count 0%float
      (set_session
         (if Binary64.truthy count
          then set_physics (set_lastTime time (physics (session page))) (session page)
          else session page)
         page).
Proof.
  destruct page as [[r hp [ms0 start last registry] events] refs dv].
  unfold onAnimationFrame_page, and_then, with_session, bind, modify, gets, ret,
    Binary64.fastForwardFrames, Binary64.frame_index. cbn.
  by destruct (Binary64.truthy _).
Qed.

Lemma onAnimationFrame_page_spec (fuel : nat) (ms time : float) (page : Page) :
  page_wf page →
  let count :=
    Binary64.fastForwardFrames ms (startTime (physics (session page)))
      (lastTime (physics (session page))) time in
  let out := onAnimationFrame_page for_in fuel ms time page in
  let plain := onAnimationFrame fuel ms time (session page) in
  out.1 = plain.1
  ∧ session out.2 = plain.2
  ∧ boxDivsRef out.2 = boxDivsRef page
  ∧ (PrimFloat.ltb 0 count = false → divs out.2 = divs page)
  ∧ (PrimFloat.ltb 0 count = true → (0 < fuel)%nat →
     attached_once page → styled page (divs out.2)).
Proof using All.
  intros Hwf count out plain. subst out plain.
  rewrite onAnimationFrame_page_body, onAnimationFrame_body. fold count.
  set (s0 := if Binary64.truthy count
             then set_physics (set_lastTime time (physics (session page))) (session page)
             else session page).
  set (page0 := set_session s0 page).
  assert (Hh : heap (session page0) = heap (session page)).
  { subst page0 s0. cbn. by destruct (Binary64.truthy _). }
  assert (Hb : boxes (physics (session page0)) = boxes (physics (session page))).
  { subst page0 s0. cbn. by destruct (Binary64.truthy _). }
  assert (Hwf0 : page_wf page0) by (by apply (page_wf_same page)).
  destruct (frames_loop_page_spec fuel
              (Binary64.frame_index ms (startTime (physics (session page)))
                 (lastTime (physics (session page))))
              count 0%float page0 Hwf0)
    as (Hok & Hsession & Hrefs & Hkeep & Hstyled).
  change (session page0) with s0 in Hok, Hsession.
  split_and!; [done | done | done | |].
  - intros Hidle. rewrite Hkeep by auto. done.
  - intros Hdue Hfuel Honce.
    assert (Hstyled0 : styled page0 (divs (frames_loop_page for_in fuel
                                              (Binary64.frame_index ms
                                                 (startTime (physics (session page)))
                                                 (lastTime (physics (session page))))
                                              count 0%float page0).2)).
    { apply Hstyled; [done | done |]. intros id1 id2 box1 box2 div Hbox1 Hbox2 Href1 Href2.
      rewrite (registry_get_same id1 (session page) (session page0)) in Hbox1 by done.
      rewrite (registry_get_same id2 (session page) (session page0)) in Hbox2 by done.
      exact (Honce id1 id2 box1 box2 div Hbox1 Hbox2 Href1 Href2). }
    intros id box div Hbox Href. apply (Hstyled0 id box div); [| done].
    by rewrite (registry_get_same _ (session page) (session page0)).
Qed.

(** The events of the page keep a ref for every registered box. *)
Lemma run_event_keeps_page_wf (fuel : nat) (page : Page) (event : PageEvent) :
  page_wf page → page_wf (run_event for_in fuel page event).2.
Proof using All.
  intros Hwf. destruct event as [|id div|ms time]; cbn [run_event snd].
  - unfold populate, bind, with_session.
    pose proof (add_keeps_registry_wf no_fields (session page) (proj1 Hwf)) as Hreg.
    destruct (add_cases no_fields (session page))
      as [(message & Hadd & _) | (id & _ & Hfree & Hadd)];
      rewrite Hadd in Hreg |- *; cbn in Hreg |- *.
    + pose proof (resolve_id_frame no_fields (session page)) as (Hh & Hp & _).
      apply (page_wf_same page); [exact Hh | exact (f_equal boxes Hp) | done | done].
    + rewrite list_lookup_middle by done. cbn.
      split; [done |]. cbn. intros id'.
      destruct (decide (id = id')) as [<-|Hne].
      * rewrite !lookup_insert_eq. eauto.
      * rewrite !lookup_insert_ne by done. apply Hwf.
  - unfold attach. destruct (boxDivsRef page !! id) eqn:Href; [| done].
    split; [apply Hwf |]. cbn. intros id' Hid'.
    destruct (decide (id = id')) as [<-|Hne].
    + rewrite lookup_insert_eq. eauto.
    + rewrite lookup_insert_ne by done. by apply Hwf.
  - destruct (onAnimationFrame_page_spec fuel ms time page Hwf) as (_ & Hsession & Hrefs & _).
    destruct (onAnimationFrame_frame fuel ms time (session page))
      as (_ & _ & Hheap & Hphysics & _).
    apply (page_wf_same page); [| | done | done]; rewrite Hsession.
    + done.
    + rewrite Hphysics. by destruct (Binary64.truthy _).
Qed.

Lemma page_wf_init (now_start now_last : float) : page_wf (Page_init now_start now_last).
Proof.
  split; [| intros id; cbn; rewrite lookup_empty; by intros [? ?]].
  unfold registry_wf. cbn. split_and!.
  - intros id ref. by rewrite lookup_empty.
  - intros ref box. by rewrite lookup_nil.
  - intros id. rewrite lookup_empty. by intros [? ?].
Qed.

Lemma run_events_page_wf (fuel : nat) (events : list PageEvent) (page : Page) :
  page_wf page → page_wf (run_events for_in fuel events page).
Proof using All.
  revert page. induction events as [|event events IH]; intros page Hwf; [done |].
  cbn [run_events]. pose proof (run_event_keeps_page_wf fuel page event Hwf) as Hstep.
  destruct (run_event for_in fuel page event) as [[] page']; [by apply IH | done].
Qed.

(** X10: on the page of the application, whatever populating effects,
    attachments of [div]s and animation frames it has seen, the animation
    callback with its whole body never throws: the styling of the box
    [div]s finds a ref for every box.  The callback returns when the
    callback without the styling does (so when the count is not above zero,
    or is a whole number up to [2^53] that the bound allows), it leaves the
    session as the callback without the styling does, and the refs as they
    are. *)
Theorem game_loop_never_throws
    (bound fuel : nat) (events : list PageEvent) (now_start now_last ms time : float) :
  let page := run_events for_in bound events (Page_init now_start now_last) in
  let count :=
    Binary64.fastForwardFrames ms (startTime (physics (session page)))
      (lastTime (physics (session page))) time in
  let out := onAnimationFrame_page for_in fuel ms time page in
  (out.1 = Returned (Ok tt) ∨ out.1 = Running)
  ∧ out.1 = (onAnimationFrame fuel ms time (session page)).1
  ∧ (PrimFloat.ltb 0 count = false
     ∨ (∃ n : Z, count = Binary64.whole n ∧ (0 < n ≤ 2 ^ 53)%Z ∧ (Z.to_nat n ≤ fuel)%nat) →
     out.1 = Returned (Ok tt))
  ∧ session out.2 = (onAnimationFrame fuel ms time (session page)).2
  ∧ boxDivsRef out.2 = boxDivsRef page.
Proof using All.
  intros page count out.
  destruct (onAnimationFrame_page_spec fuel ms time page
              (run_events_page_wf _ _ _ (page_wf_init _ _)))
    as (Hout & Hsession & Hrefs & _).
  fold out in Hout, Hsession, Hrefs.
  destruct (onAnimationFrame_frame fuel ms time (session page)) as (Hplain & _).
  split_and!; [by rewrite Hout | done | | done | done].
  intros [Hidle | (n & Hcount & Hn & Hfuel)]; rewrite Hout.
  - by rewrite onAnimationFrame_idle.
  - by rewrite (onAnimationFrame_whole fuel ms time (session page) n).
Qed.

(** X11: on a page where every registered box has a ref and no [div] is
    attached to two boxes, a callback whose count is above zero leaves
    every attached [div] with the width, height and translation of its box
    (as soon as one iteration of its loop is over), and it returns when the
    count is a whole number up to [2^53] that the bound allows; a callback
    whose count is not above zero returns and writes no style. *)
Theorem frame_styles_the_attached_divs (fuel : nat) (ms time : float) (page : Page) :
  page_wf page →
  attached_once page →
  let count :=
    Binary64.fastForwardFrames ms (startTime (physics (session page)))
      (lastTime (physics (session page))) time in
  let out := onAnimationFrame_page for_in fuel ms time page in
  (PrimFloat.ltb 0 count = true → (0 < fuel)%nat →
   ∀ id box div,
     registry_get id (session page) = Some box →
     boxDivsRef page !! id = Some (Some div) →
     divs out.2 !! div = Some (box_style box))
  ∧ (∀ n : Z, count = Binary64.whole n → (0 < n ≤ 2 ^ 53)%Z → (Z.to_nat n ≤ fuel)%nat →
     out.1 = Returned (Ok tt))
  ∧ (PrimFloat.ltb 0 count = false → out.1 = Returned (Ok tt) ∧ divs out.2 = divs page).
Proof using All.
  intros Hwf Honce count out.
  destruct (onAnimationFrame_page_spec fuel ms time page Hwf)
    as (Hout & _ & _ & Hkeep & Hstyled).
  fold count out in Hout, Hkeep, Hstyled.
  split_and!.
  - intros Hdue Hfuel id box div Hbox Href.
    apply (Hstyled Hdue Hfuel Honce id box div Hbox).
    destruct Hwf as [(Hreg & _ & _) _]. unfold registry_get in Hbox.
    destruct (boxes (physics (session page)) !! id) as [ref|] eqn:Hid; [| done].
    destruct (Hreg _ _ Hid) as (box' & Hbox' & <-). cbn in Hbox.
    by assert (box' = box) as -> by congruence.
  - intros n Hcount Hn Hfuel. rewrite Hout.
    by rewrite (onAnimationFrame_whole fuel ms time (session page) n).
  - intros Hidle. split; [| by apply Hkeep].
    rewrite Hout. by rewrite onAnimationFrame_idle.
Qed.


End Page_properties.

(** *** The tile map *)

Lemma draw_tile_dest (sheet : Q * Q) (y x : nat) :
  draw_dx (draw_tile sheet y x) = (number_of_nat x * px)%Q
  ∧ draw_dy (draw_tile sheet y x) = (number_of_nat y * px)%Q
  ∧ draw_dw (draw_tile sheet y x) = (1 * px)%Q
  ∧ draw_dh (draw_tile sheet y x) = (1 * px)%Q.
Proof. by destruct sheet. Qed.

Lemma number_of_nat_next (a b : nat) :
  (a < b)%nat → (number_of_nat a + 1 <= number_of_nat b)%Q.
Proof.
  intros Hlt. unfold number_of_nat. change 1%Q with (inject_Z 1).
  rewrite <- inject_Z_plus. rewrite <- Zle_Qle. lia.
Qed.

Lemma number_of_nat_nonneg (a : nat) : (0 <= number_of_nat a)%Q.
Proof. unfold number_of_nat. change 0%Q with (inject_Z 0). rewrite <- Zle_Qle. lia. Qed.

Lemma draw_cell_drawable (legend : gmap string (Q * Q)) (y x : nat) (key : string)
    (canvas : list DrawImage) :
  (key ∈ Object_prototype → is_Some (legend !! key)) →
  draw_cell legend y x key canvas = (Ok tt, canvas ++ row_tiles legend y x [key]).
Proof.
  intros Hkey. unfold draw_cell, js_in. cbn.
  destruct (legend !! key) as [sheet|] eqn:Hlegend.
  - by rewrite bool_decide_eq_true_2 by eauto.
  - rewrite (bool_decide_eq_false_2 (is_Some None)) by (by intros [? ?]).
    rewrite bool_decide_eq_false_2; [cbn; by rewrite app_nil_r |].
    intros Hin. by destruct (Hkey Hin).
Qed.

Lemma draw_cell_inherited (legend : gmap string (Q * Q)) (y x : nat) (key : string)
    (canvas : list DrawImage) :
  key ∈ Object_prototype → legend !! key = None →
  draw_cell legend y x key canvas
  = (Throw "TypeError: map_legend[tileKey] is not iterable", canvas).
Proof.
  intros Hin Hnone. unfold draw_cell, js_in. rewrite Hnone.
  by rewrite (bool_decide_eq_true_2 (key ∈ Object_prototype)), orb_true_r.
Qed.

Lemma row_tiles_app (legend : gmap string (Q * Q)) (y x : nat) (cells more : list string) :
  row_tiles legend y x (cells ++ more)
  = row_tiles legend y x cells ++ row_tiles legend y (x + length cells) more.
Proof.
  revert x. induction cells as [|key rest IH]; intros x; cbn.
  - by rewrite Nat.add_0_r.
  - rewrite IH, Nat.add_succ_r. by destruct (legend !! key).
Qed.

Lemma draw_row_drawable (legend : gmap string (Q * Q)) (y x : nat) (cells : list string)
    (canvas : list DrawImage) :
  Forall (λ key, key ∈ Object_prototype → is_Some (legend !! key)) cells →
  draw_row legend y x cells canvas = (Ok tt, canvas ++ row_tiles legend y x cells).
Proof.
  revert x canvas. induction cells as [|key rest IH]; intros x canvas Hcells.
  - cbn. by rewrite app_nil_r.
  - apply Forall_cons in Hcells as [Hkey Hrest].
    cbn [draw_row]. unfold bind. rewrite (draw_cell_drawable _ _ _ _ _ Hkey).
    rewrite (IH _ _ Hrest), <- app_assoc. do 2 f_equal.
    cbn. by destruct (legend !! key).
Qed.

Lemma draw_rows_drawable (legend : gmap string (Q * Q)) (y : nat) (rows : list string)
    (canvas : list DrawImage) :
  drawable legend rows →
  draw_rows legend y rows canvas = (Ok tt, canvas ++ rows_tiles legend y rows).
Proof.
  revert y canvas. induction rows as [|row rest IH]; intros y canvas Hrows.
  - cbn. by rewrite app_nil_r.
  - apply Forall_cons in Hrows as [Hrow Hrest].
    cbn [draw_rows]. unfold bind. rewrite (draw_row_drawable _ _ _ _ _ Hrow).
    rewrite (IH _ _ Hrest), <- app_assoc. done.
Qed.

Lemma elem_of_row_tiles (legend : gmap string (Q * Q)) (y x0 : nat) (cells : list string)
    (d : DrawImage) :
  d ∈ row_tiles legend y x0 cells
  ↔ ∃ i key sheet, cells !! i = Some key ∧ legend !! key = Some sheet
                   ∧ d = draw_tile sheet y (x0 + i).
Proof.
  revert x0. induction cells as [|key rest IH]; intros x0; cbn.
  { rewrite elem_of_nil. split; [done | by intros (i & ? & ? & ? & _)]. }
  assert (Hrest : d ∈ row_tiles legend y (S x0) rest
                  ↔ ∃ i key' sheet, (key :: rest) !! S i = Some key'
                                    ∧ legend !! key' = Some sheet
                                    ∧ d = draw_tile sheet y (x0 + S i)).
  { rewrite IH. by setoid_rewrite Nat.add_succ_r. }
  destruct (legend !! key) as [sheet|] eqn:Hkey.
  - rewrite elem_of_cons, Hrest. split.
    + intros [-> | (i & key' & sheet' & Hi)].
      * exists 0%nat, key, sheet. by rewrite Nat.add_0_r.
      * by exists (S i), key', sheet'.
    + intros ([|i] & key' & sheet' & Hi & Hlegend & ->).
      * left. cbn in Hi. injection Hi as <-. rewrite Nat.add_0_r. congruence.
      * right. by exists i, key', sheet'.
  - rewrite Hrest. split.
    + intros (i & key' & sheet' & Hi). by exists (S i), key', sheet'.
    + intros ([|i] & key' & sheet' & Hi & Hlegend & ->).
      * cbn in Hi. injection Hi as <-. congruence.
      * by exists i, key', sheet'.
Qed.

Lemma elem_of_rows_tiles (legend : gmap string (Q * Q)) (y0 : nat) (rows : list string)
    (d : DrawImage) :
  d ∈ rows_tiles legend y0 rows
  ↔ ∃ j i row key sheet, rows !! j = Some row ∧ split "," row !! i = Some key
                         ∧ legend !! key = Some sheet
                         ∧ d = draw_tile sheet (y0 + j) i.
Proof.
  revert y0. induction rows as [|row rest IH]; intros y0; cbn.
  { rewrite elem_of_nil. split; [done | by intros (j & ? & ? & ? & ? & ? & _)]. }
  rewrite elem_of_app, elem_of_row_tiles, IH. split.
  - intros [(i & key & sheet & Hi & Hlegend & ->)
           | (j & i & row' & key & sheet & Hj & Hi & Hlegend & ->)].
    + exists 0%nat, i, row, key, sheet. by rewrite Nat.add_0_r.
    + exists (S j), i, row', key, sheet. by rewrite Nat.add_succ_r.
  - intros ([|j] & i & row' & key & sheet & Hj & Hi & Hlegend & ->).
    + left. cbn in Hj. injection Hj as <-. exists i, key, sheet.
      by rewrite Nat.add_0_r.
    + right. exists j, i, row', key, sheet. by rewrite Nat.add_succ_r.
Qed.

Lemma row_tiles_apart (legend : gmap string (Q * Q)) (y x0 : nat) (cells : list string) :
  StronglySorted drawn_apart (row_tiles legend y x0 cells).
Proof.
  revert x0. induction cells as [|key rest IH]; intros x0; cbn; [constructor |].
  destruct (legend !! key) as [sheet|]; [| apply IH].
  constructor; [apply IH |]. apply Forall_forall. intros d Hd.
  apply elem_of_row_tiles in Hd as (i & key' & sheet' & _ & _ & ->).
  right. destruct (draw_tile_dest sheet y x0) as (-> & -> & -> & _).
  destruct (draw_tile_dest sheet' y (S x0 + i)) as (-> & -> & _).
  split; [reflexivity |].
  pose proof (number_of_nat_next x0 (S x0 + i) ltac:(lia)). unfold px. lra.
Qed.

Lemma rows_tiles_apart (legend : gmap string (Q * Q)) (y0 : nat) (rows : list string) :
  StronglySorted drawn_apart (rows_tiles legend y0 rows).
Proof.
  revert y0. induction rows as [|row rest IH]; intros y0; cbn; [constructor |].
  apply StronglySorted_app_2; [| apply row_tiles_apart | apply IH].
  intros d1 d2 Hd1 Hd2.
  apply elem_of_row_tiles in Hd1 as (i1 & key1 & sheet1 & _ & _ & ->).
  apply elem_of_rows_tiles in Hd2 as (j & i2 & row2 & key2 & sheet2 & _ & _ & _ & ->).
  left. destruct (draw_tile_dest sheet1 y0 (0 + i1)) as (_ & -> & _ & ->).
  destruct (draw_tile_dest sheet2 (S y0 + j) i2) as (_ & -> & _).
  pose proof (number_of_nat_next y0 (S y0 + j) ltac:(lia)). unfold px. lra.
Qed.

Lemma StronglySorted_NoDup {A : Type} (R : relation A) (l : list A) :
  StronglySorted R l → (∀ a, a ∈ l → ¬ R a a) → NoDup l.
Proof.
  induction 1 as [|a l Hsorted IH Hall]; intros Hirr; constructor.
  - intros Hin. rewrite Forall_forall in Hall.
    apply (Hirr a); [by left | by apply Hall].
  - apply IH. intros b Hb. apply Hirr. by right.
Qed.

Lemma rows_tiles_NoDup (legend : gmap string (Q * Q)) (rows : list string) :
  NoDup (rows_tiles legend 0 rows).
Proof.
  apply (StronglySorted_NoDup drawn_apart); [apply rows_tiles_apart |].
  intros d Hd. apply elem_of_rows_tiles in Hd as (j & i & row & key & sheet & _ & _ & _ & ->).
  destruct (draw_tile_dest sheet (0 + j) i) as (Hdx & Hdy & Hdw & Hdh).
  unfold drawn_apart. rewrite Hdw, Hdh. unfold px. intros [Hbelow | [_ Hright]]; lra.
Qed.

(** X13: when no cell of the map names a member of [Object.prototype]
    that the legend lacks, drawing the tiles returns and keeps the calls of
    [drawImage] made before.  The calls it has made are those of the cells
    whose key the legend defines and no other (a blank or unknown key draws
    nothing), each with the sheet position of the key and the column and
    row of the cell; there is exactly one call for each such cell; and the
    calls are made row by row from the top, from left to right in a row:
    every later call draws below an earlier one, or in its row and to the
    right of it. *)
Theorem draw_tiles_draws_the_legend_cells
    (legend : gmap string (Q * Q)) (map : list string) (canvas : list DrawImage) :
  drawable legend map →
  ∃ tiles,
    draw_tiles legend map canvas = (Ok tt, canvas ++ tiles)
    ∧ (∀ d, d ∈ tiles
            ↔ ∃ y x row key sheet,
                map !! y = Some row ∧ split "," row !! x = Some key
                ∧ legend !! key = Some sheet ∧ d = draw_tile sheet y x)
    ∧ (∀ y x row key sheet,
         map !! y = Some row → split "," row !! x = Some key →
         legend !! key = Some sheet →
         ∃ before after,
           tiles = before ++ draw_tile sheet y x :: after
           ∧ (draw_tile sheet y x ∉ before) ∧ (draw_tile sheet y x ∉ after))
    ∧ StronglySorted drawn_apart tiles.
Proof.
  intros Hmap. exists (rows_tiles legend 0 map). split_and!.
  - by apply draw_rows_drawable.
  - intros d. apply elem_of_rows_tiles.
  - intros y x row key sheet Hy Hx Hkey.
    assert (Hin : draw_tile sheet y x ∈ rows_tiles legend 0 map).
    { apply elem_of_rows_tiles. by exists y, x, row, key, sheet. }
    apply list_elem_of_split in Hin as (before & after & Htiles).
    exists before, after. split; [done |].
    pose proof (rows_tiles_NoDup legend map) as Hnodup. rewrite Htiles in Hnodup.
    apply NoDup_app in Hnodup as (_ & Hbefore & Hafter).
    apply NoDup_cons in Hafter as [Hafter _]. split; [| done].
    intros Hin. apply (Hbefore _ Hin). by left.
  - apply rows_tiles_apart.
Qed.

Lemma StronglySorted_lookup {A : Type} (R : relation A) (l : list A) (i j : nat) (a b : A) :
  StronglySorted R l → l !! i = Some a → l !! j = Some b → (i < j)%nat → R a b.
Proof.
  intros Hsorted. revert i j. induction Hsorted as [|x l Hl IH Hall]; intros i j Ha Hb Hij.
  { by rewrite lookup_nil in Ha. }
  destruct j as [|j]; [lia |]. cbn in Hb. destruct i as [|i]; cbn in Ha.
  - injection Ha as <-. rewrite Forall_forall in Hall. apply Hall.
    by eapply list_elem_of_lookup_2.
  - apply (IH i j); [done | done | lia].
Qed.

(** X14: the tiles that drawing puts on an empty canvas never overlap:
    of two calls of [drawImage], the destination square of the later one
    lies wholly below the square of the earlier one, or in the same row
    and wholly to the right of it. *)
Theorem drawn_tiles_never_overlap
    (legend : gmap string (Q * Q)) (map : list string) (i j : nat) (a b : DrawImage) :
  drawable legend map →
  let canvas := (draw_tiles legend map []).2 in
  canvas !! i = Some a →
  canvas !! j = Some b →
  (i < j)%nat →
  drawn_apart a b.
Proof.
  intros Hmap canvas Ha Hb Hij. subst canvas.
  unfold draw_tiles in Ha, Hb. rewrite draw_rows_drawable in Ha, Hb by done.
  cbn in Ha, Hb.
  pose proof (rows_tiles_apart legend 0 map) as Hsorted.
  by apply (StronglySorted_lookup _ _ i j a b Hsorted).
Qed.

(** X15: when the map has at most [n] rows of at most [n] cells each, every
    tile is drawn inside the square of [n] tiles: for the map and the
    legend of the program and [n = cameraTiles], inside the canvas of side
    [cameraSidePx]. *)
Theorem drawn_tiles_stay_inside
    (legend : gmap string (Q * Q)) (map : list string) (n : nat) (d : DrawImage) :
  drawable legend map →
  (length map ≤ n)%nat →
  Forall (λ row, (length (split "," row) ≤ n)%nat) map →
  d ∈ (draw_tiles legend map []).2 →
  (0 <= draw_dx d ∧ draw_dx d + draw_dw d <= number_of_nat n * px
   ∧ 0 <= draw_dy d ∧ draw_dy d + draw_dh d <= number_of_nat n * px)%Q.
Proof.
  intros Hmap Hrows Hcells Hd.
  unfold draw_tiles in Hd. rewrite draw_rows_drawable in Hd by done. cbn in Hd.
  apply elem_of_rows_tiles in Hd as (y & x & row & key & sheet & Hy & Hx & _ & ->).
  destruct (draw_tile_dest sheet (0 + y) x) as (-> & -> & -> & ->).
  assert (Hylt : (y < n)%nat) by (apply lookup_lt_Some in Hy; lia).
  assert (Hxlt : (x < n)%nat).
  { apply lookup_lt_Some in Hx.
    rewrite Forall_forall in Hcells. apply list_elem_of_lookup_2 in Hy.
    specialize (Hcells row Hy). cbn in Hcells. lia. }
  pose proof (number_of_nat_next x n Hxlt).
  pose proof (number_of_nat_next (0 + y) n ltac:(lia)).
  pose proof (number_of_nat_nonneg x). pose proof (number_of_nat_nonneg (0 + y)).
  unfold px. split_and!; lra.
Qed.

(** X16: a cell that names a member of [Object.prototype] which the legend
    does not define (say [toString]) makes the drawing throw a
    [TypeError]: the tiles of the rows above and of the cells to its left
    have been drawn, and nothing after it. *)
Theorem inherited_tile_key_stops_the_drawing
    (legend : gmap string (Q * Q)) (above below : list string) (row : string)
    (left right : list string) (key : string) (canvas : list DrawImage) :
  drawable legend above →
  split "," row = left ++ key :: right →
  Forall (λ key, key ∈ Object_prototype → is_Some (legend !! key)) left →
  key ∈ Object_prototype →
  legend !! key = None →
  draw_tiles legend (above ++ row :: below) canvas
  = (Throw "TypeError: map_legend[tileKey] is not iterable",
     canvas ++ rows_tiles legend 0 above ++ row_tiles legend (length above) 0 left).
Proof.
  intros Habove Hrow Hleft Hkey Hnone. unfold draw_tiles.
  assert (Hrows : ∀ y rows c,
            drawable legend rows →
            draw_rows legend y (rows ++ row :: below) c
            = (Throw "TypeError: map_legend[tileKey] is not iterable",
               c ++ rows_tiles legend y rows ++ row_tiles legend (y + length rows) 0 left)).
  { intros y rows. revert y. induction rows as [|r rest IH]; intros y c Hdrawable.
    - cbn [app draw_rows rows_tiles length]. unfold bind. rewrite Hrow, Nat.add_0_r.
      assert (Hcells : ∀ x cells c',
                Forall (λ k, k ∈ Object_prototype → is_Some (legend !! k)) cells →
                draw_row legend y x (cells ++ key :: right) c'
                = (Throw "TypeError: map_legend[tileKey] is not iterable",
                   c' ++ row_tiles legend y x cells)).
      { intros x cells. revert x. induction cells as [|k ks IHc]; intros x c' Hks.
        - cbn [app draw_row row_tiles]. unfold bind.
          rewrite (draw_cell_inherited _ _ _ _ _ Hkey Hnone). by rewrite app_nil_r.
        - apply Forall_cons in Hks as [Hk Hks].
          cbn [app draw_row]. unfold bind. rewrite (draw_cell_drawable _ _ _ _ _ Hk).
          rewrite (IHc _ _ Hks), <- app_assoc. do 2 f_equal.
          cbn. by destruct (legend !! k). }
      by rewrite (Hcells 0%nat left c Hleft).
    - apply Forall_cons in Hdrawable as [Hr Hrest].
      cbn [app draw_rows rows_tiles length]. unfold bind.
      rewrite (draw_row_drawable _ _ _ _ _ Hr).
      rewrite (IH (S y) _ Hrest), <- !app_assoc, Nat.add_succ_r. done. }
  by rewrite (Hrows 0%nat above canvas Habove).
Qed.

(** ** The further properties at concrete inputs *)

Lemma key_list_enumerates `{Host} : enumerates key_list.
Proof.
  intros s. unfold key_list. split.
  - apply NoDup_fst_map_to_list.
  - intros id. rewrite list_elem_of_fmap. split.
    + intros ([id' ref] & -> & Hin). apply elem_of_map_to_list in Hin. eauto.
    + intros [ref Href]. exists (id, ref). split; [done |]. by apply elem_of_map_to_list.
Qed.

(** X1 at a clock whose [stepMs] is zero, with [lastTime] before
    [startTime] and the sample after it: the count is [+Infinity], and with
    seven iterations allowed the loop has stepped seven frames and is not
    over. *)
Lemma tick_never_returns_above_2_53_witness :
  let s := clock_state 0 0 (-5) in
  let out := onAnimationFrame 7 0 10 s in
  Binary64.fastForwardFrames 0 0 (-5) 10 = infinity
  ∧ PrimFloat.ltb (Binary64.whole (2 ^ 53)) (Binary64.fastForwardFrames 0 0 (-5) 10) = true
  ∧ out.1 = Running
  ∧ length (stepped_frames (new_events s out.2)) = 7%nat.
Proof.
  cbv zeta.
  assert (Habove : PrimFloat.ltb (Binary64.whole (2 ^ 53))
                     (Binary64.fastForwardFrames 0 0 (-5) 10) = true) by by vm_compute.
  destruct (tick_never_returns_above_2_53 7 0 10 (clock_state 0 0 (-5)) Habove)
    as (Hout & Hsteps & _).
  split_and!; [by vm_compute | exact Habove | exact Hout | exact Hsteps].
Defined.

(** X2 at a clock as the program has it: [startTime] is a [Date.now()], the
    samples are animation-frame timestamps, so the frame indices are large
    negative numbers.  From [lastTime = 50], the samples 60, 100, 101 and
    200 step nine frames between them. *)
Lemma monotone_ticks_step_each_frame_once_witness :
  let s := clock_state (1000 / 60) 1700000000000 50 in
  let frames := [-101999999997; -101999999994; -101999999994; -101999999988]%Z in
  let out := animation_frames 9 (1000 / 60) [60; 100; 101; 200]%float s in
  Forall2 (λ time frame,
             Binary64.frame_index (1000 / 60) 1700000000000 time = Binary64.wholeZ frame)
    [60; 100; 101; 200]%float frames
  ∧ Sorted Z.le ((-101999999997)%Z :: frames)
  ∧ out.1 = Returned (Ok tt)
  ∧ stepped_frames (new_events s out.2) = Binary64.wholeZ <$> seqZ (-101999999997) 9.
Proof.
  cbv zeta.
  assert (Hframes : Forall2 (λ time frame,
                               Binary64.frame_index (1000 / 60) 1700000000000 time
                               = Binary64.wholeZ frame)
                      [60; 100; 101; 200]%float
                      [-101999999997; -101999999994; -101999999994; -101999999988]%Z).
  { repeat constructor; by vm_compute. }
  assert (Hsorted : Sorted Z.le [-101999999997; -101999999997; -101999999994;
                                 -101999999994; -101999999988]%Z).
  { repeat constructor; lia. }
  destruct (monotone_ticks_step_each_frame_once 9 (1000 / 60) [60; 100; 101; 200]%float
              [-101999999997; -101999999994; -101999999994; -101999999988]%Z
              (-101999999997)%Z (clock_state (1000 / 60) 1700000000000 50))
    as (Hout & Hsteps & _);
    [by vm_compute | exact Hframes | exact Hsorted | repeat constructor; lia
     | cbn; lia | cbn; lia |].
  split_and!; [exact Hframes | exact Hsorted | exact Hout | exact Hsteps].
Defined.

(** X5 at [add({ id: 'toString' })] on a new session. *)
Lemma failed_add_stores_nothing_witness :
  let s : @State counting_host := State_init 0 0 in
  let arg := full_box "toString" 0 0 1 1 solid in
  is_throw (add arg s).1 = true ∧ (add arg s).2 = s.
Proof.
  cbv zeta.
  assert (Hthrow : is_throw (add (full_box "toString" 0 0 1 1 solid)
                               (State_init 0 0 : @State counting_host)).1 = true)
    by by vm_compute.
  destruct (failed_add_stores_nothing _ _ Hthrow) as (_ & _ & _ & Hsame).
  split; [done |]. by apply (Hsame "toString").
Defined.

(** X6 at [add({})] on a new session. *)
Lemma successful_add_adds_one_box_witness :
  let s : @State counting_host := State_init 0 0 in
  (add no_fields s).1 = Ok 0%nat
  ∧ ∃ box, heap (add no_fields s).2 = heap s ++ [box]
           ∧ boxes (physics (add no_fields s).2)
             = <[box_id box := 0%nat]> (boxes (physics s)).
Proof.
  cbv zeta.
  assert (Hok : (add no_fields (State_init 0 0 : @State counting_host)).1 = Ok 0%nat)
    by by vm_compute.
  destruct (successful_add_adds_one_box _ _ _ Hok) as (box & _ & Hheap & _ & Hboxes & _).
  split; [done |]. by exists box.
Defined.

(** X7 at [add({ id: 'a', ... })] on a new session. *)
Lemma add_returns_iff_id_free_witness :
  let s : @State counting_host := State_init 0 0 in
  let arg := full_box "a" 0 0 1 1 solid in
  opt_id arg = Some "a" ∧ (add arg s).1 = Ok 0%nat.
Proof.
  cbv zeta. split; [done |].
  destruct (add_returns_iff_id_free (full_box "a" 0 0 1 1 solid) "a"
              (State_init 0 0 : @State counting_host) eq_refl) as [[_ Hfree] _].
  apply Hfree. split; [by vm_compute |].
  apply (bool_decide_unpack _). by vm_compute.
Defined.

(** X9 at a window of 800 by 600 pixels: the camera square gets the side
    600. *)
Lemma camera_fits_window_witness :
  (0 <= 800)%Q ∧ (0 < 600)%Q
  ∧ (cameraScale 800 600 * cameraSidePx <= 800)%Q
  ∧ (cameraScale 800 600 * cameraSidePx <= 600)%Q.
Proof.
  assert (Hw : (0 <= 800)%Q) by by vm_compute.
  assert (Hh : (0 < 600)%Q) by by vm_compute.
  destruct (camera_fits_window 800 600 Hw Hh) as (Hfitw & Hfith & _).
  by split_and!.
Defined.

(** X10 on the populated page, at the first frame, 50 ms on: the count is
    3. *)
Lemma game_loop_never_throws_witness :
  enumerates (key_list (H := counting_host))
  ∧ Binary64.fastForwardFrames (1000 / 60) 0 0 50 = Binary64.whole 3
  ∧ (onAnimationFrame_page key_list 3 (1000 / 60) 50 populated_page).1 = Returned (Ok tt).
Proof.
  split; [exact key_list_enumerates |]. split; [by vm_compute |].
  destruct (game_loop_never_throws (@key_list counting_host) key_list_enumerates 0 3
              [Populate] 0 0 (1000 / 60) 50) as (_ & _ & Hreturns & _).
  apply Hreturns. right. exists 3%Z.
  split; [by vm_compute |]. split; [lia |]. change (Z.to_nat 3) with 3%nat. lia.
Defined.

Lemma attached_page_wf : page_wf attached_page.
Proof.
  apply (run_events_page_wf key_list key_list_enumerates), page_wf_init.
Qed.

Lemma attached_page_once : attached_once attached_page.
Proof.
  assert (Hheap : ∀ id box, registry_get id (session attached_page) = Some box →
                            box = {| box_id := "0.07"; box_x := 0; box_y := 0;
                                     box_w := 1; box_h := 1; box_kind := solid |}).
  { intros id box. unfold registry_get.
    destruct (boxes (physics (session attached_page)) !! id) as [ref|]; [cbn | done].
    change (heap (session attached_page))
      with [ {| box_id := "0.07"; box_x := 0%Q; box_y := 0%Q;
                box_w := 1%Q; box_h := 1%Q; box_kind := solid |} ].
    intros Hbox. apply list_elem_of_lookup_2 in Hbox.
    by apply list_elem_of_singleton in Hbox. }
  intros id1 id2 box1 box2 div Hbox1 Hbox2 _ _.
  by rewrite (Hheap _ _ Hbox1), (Hheap _ _ Hbox2).
Qed.

(** X11 on the page with the attached [div], 50 ms on: the count is 3, and
    the [div] shows the style of the box. *)
Lemma frame_styles_the_attached_divs_witness :
  let out := onAnimationFrame_page key_list 3 (1000 / 60) 50 attached_page in
  enumerates (key_list (H := counting_host))
  ∧ page_wf attached_page
  ∧ attached_once attached_page
  ∧ PrimFloat.ltb 0 (Binary64.fastForwardFrames (1000 / 60) 0 0 50) = true
  ∧ ∃ box, registry_get "0.07" (session attached_page) = Some box
           ∧ boxDivsRef attached_page !! "0.07" = Some (Some 3%nat)
           ∧ divs out.2 !! 3%nat = Some (@box_style counting_host box).
Proof.
  cbv zeta.
  destruct (frame_styles_the_attached_divs key_list key_list_enumerates
              3 (1000 / 60) 50 attached_page attached_page_wf attached_page_once)
    as [Hstyled _].
  split_and!; [exact key_list_enumerates | exact attached_page_wf
               | exact attached_page_once | by vm_compute |].
  eexists. split_and!; [by vm_compute | by vm_compute |].
  apply (Hstyled ltac:(by vm_compute) ltac:(lia) "0.07"); by vm_compute.
Defined.



Lemma map_json_drawable : drawable map_legend map_json.
Proof. apply (bool_decide_unpack _). by vm_compute. Qed.

(** X13 on the map and the legend of the program: 41 tiles, of which the
    tile of the cell [b1], in row 4 and column 1, is drawn once. *)
Lemma draw_tiles_draws_the_legend_cells_witness :
  drawable map_legend map_json
  ∧ ∃ tiles, draw_tiles map_legend map_json [] = (Ok tt, tiles)
             ∧ length tiles = 41%nat
             ∧ (∃ before after,
                  tiles = before ++ draw_tile (0, 5)%Q 4 1 :: after
                  ∧ (draw_tile (0, 5)%Q 4 1 ∉ before) ∧ (draw_tile (0, 5)%Q 4 1 ∉ after))
             ∧ StronglySorted drawn_apart tiles.
Proof.
  split; [exact map_json_drawable |].
  destruct (draw_tiles_draws_the_legend_cells map_legend map_json [] map_json_drawable)
    as (tiles & Hdraw & _ & Honce & Hsorted).
  exists tiles. split_and!; [done | | | done].
  - apply (f_equal snd) in Hdraw. cbn in Hdraw. subst tiles. by vm_compute.
  - apply (Honce 4%nat 1%nat "  ,b1,  ,ta,ts,td,  ,  ,  ,  " "b1"); by vm_compute.
Defined.

(** X14 on the map of the program: the first two tiles, [tq] and [tw] of
    the fourth row. *)
Lemma drawn_tiles_never_overlap_witness :
  drawable map_legend map_json
  ∧ ∃ a b, (draw_tiles map_legend map_json []).2 !! 0%nat = Some a
           ∧ (draw_tiles map_legend map_json []).2 !! 1%nat = Some b
           ∧ (0 < 1)%nat
           ∧ drawn_apart a b.
Proof.
  split; [exact map_json_drawable |].
  do 2 eexists. split_and!; [by vm_compute | by vm_compute | lia |].
  apply (drawn_tiles_never_overlap map_legend map_json 0 1 _ _ map_json_drawable);
    [by vm_compute | by vm_compute | lia].
Defined.

(** X15 on the map of the program: every tile lies on the canvas, whose
    side is [cameraSidePx]. *)
Lemma drawn_tiles_stay_inside_witness :
  drawable map_legend map_json
  ∧ (length map_json ≤ 10)%nat
  ∧ Forall (λ row, (length (split "," row) ≤ 10)%nat) map_json
  ∧ (number_of_nat 10 * px == cameraSidePx)%Q
  ∧ ∀ d, d ∈ (draw_tiles map_legend map_json []).2 →
         (0 <= draw_dx d ∧ draw_dx d + draw_dw d <= number_of_nat 10 * px
          ∧ 0 <= draw_dy d ∧ draw_dy d + draw_dh d <= number_of_nat 10 * px)%Q.
Proof.
  assert (Hrows : (length map_json ≤ 10)%nat) by (cbn; lia).
  assert (Hcells : Forall (λ row, (length (split "," row) ≤ 10)%nat) map_json).
  { apply (bool_decide_unpack _). by vm_compute. }
  split_and!; [exact map_json_drawable | exact Hrows | exact Hcells | by vm_compute |].
  intros d.
  exact (drawn_tiles_stay_inside map_legend map_json 10 d map_json_drawable Hrows Hcells).
Defined.

(** X16 on a map whose second row has the cell [toString]. *)
Lemma inherited_tile_key_stops_the_drawing_witness :
  drawable map_legend ["gq,gw"]
  ∧ split "," "gs,toString,gd" = ["gs"] ++ "toString" :: ["gd"]
  ∧ "toString" ∈ Object_prototype
  ∧ map_legend !! "toString" = None
  ∧ draw_tiles map_legend ["gq,gw"; "gs,toString,gd"; "ga"] []
    = (Throw "TypeError: map_legend[tileKey] is not iterable",
       [draw_tile (0, 58)%Q 0 0; draw_tile (1, 58)%Q 0 1; draw_tile (1, 59)%Q 1 0]).
Proof.
  assert (Habove : drawable map_legend ["gq,gw"]).
  { apply (bool_decide_unpack _). by vm_compute. }
  assert (Hrow : split "," "gs,toString,gd" = ["gs"] ++ "toString" :: ["gd"])
    by by vm_compute.
  assert (Hleft : Forall (λ key, key ∈ Object_prototype → is_Some (map_legend !! key))
                    ["gs"]).
  { apply (bool_decide_unpack _). by vm_compute. }
  assert (Hkey : "toString" ∈ Object_prototype).
  { apply (bool_decide_unpack _). by vm_compute. }
  assert (Hnone : map_legend !! "toString" = None) by by vm_compute.
  split_and!; [exact Habove | exact Hrow | exact Hkey | exact Hnone |].
  exact (inherited_tile_key_stops_the_drawing map_legend ["gq,gw"] ["ga"]
           "gs,toString,gd" ["gs"] ["gd"] "toString" [] Habove Hrow Hleft Hkey Hnone).
Defined.
